(** * ECR image cleanup: the retention logic of scripts/main.go and scripts/test.go

    Two programs live in the repository.  [scripts/test.go] keeps the two most
    recently pushed images among all images that match a retained tag prefix
    and deletes the other matches and every untagged image (the spec's
    Variant A).  [scripts/main.go] keeps the two most recent entries of every
    prefix group and deletes the remaining tagged images once they are older
    than the retention period (the spec's Variant B).

    The registry, the clock and the log are outside the programs; they appear
    here as inputs (image lists, a sequence of clock readings, the outcome of
    each delete call) and as a trace of emitted events. *)

From Stdlib Require Import ZArith Ascii String List Bool Lia.
From Stdlib Require Import Floats.SpecFloat.
From stdpp Require Import gmap strings list sorting.

#[local] Set Warnings "-clear-no-such-hyp".

Open Scope string_scope.
Open Scope Z_scope.
Open Scope list_scope.

(* ===================================================================== *)
(** ** Strings: strings.HasPrefix and strings.Split *)
(* ===================================================================== *)

(** [strings.HasPrefix(s, prefix)]: [s] begins with [prefix], byte by byte. *)
Fixpoint HasPrefix (s prefix : string) : bool :=
  match prefix with
  | EmptyString => true
  | String c prefix' =>
      match s with
      | EmptyString => false
      | String d s' => if Ascii.eqb c d then HasPrefix s' prefix' else false
      end
  end.

(** [strings.Split(s, sep)] for a one-byte separator, as both programs call
    it with [","]: the pieces between the separators, empty pieces included;
    a string without separator, the empty one too, gives one piece. *)
Fixpoint Split (s : string) (sep : ascii) : list string :=
  match s with
  | EmptyString => [EmptyString]
  | String c s' =>
      if Ascii.eqb c sep then EmptyString :: Split s' sep
      else match Split s' sep with
           | piece :: pieces => String c piece :: pieces
           | [] => [String c EmptyString]
           end
  end.

Definition comma : ascii := ","%char.

(** [strings.ToLower(s)]: a string of ASCII bytes gets each byte from [A] to
    [Z] moved up by ['a' - 'A']; any other string goes through
    [strings.Map(unicode.ToLower, s)], which is taken as given. *)
Definition isUpperByte (c : ascii) : bool :=
  (N_of_ascii "A" <=? N_of_ascii c)%N && (N_of_ascii c <=? N_of_ascii "Z")%N.

Fixpoint isASCII (s : string) : bool :=
  match s with
  | EmptyString => true
  | String c s' => (N_of_ascii c <? 128)%N && isASCII s'
  end.

Fixpoint lowerASCII (s : string) : string :=
  match s with
  | EmptyString => EmptyString
  | String c s' =>
      String (if isUpperByte c then ascii_of_N (N_of_ascii c + 32) else c) (lowerASCII s')
  end.

Section to_lower.
Variable unicodeToLower : string → string.

Definition ToLower (s : string) : string :=
  if isASCII s then lowerASCII s else unicodeToLower s.

(** [dryRun = strings.ToLower(dryRunInput) == "yes"] (main.go, line 50;
    test.go, line 43). *)
Definition dryRunOf (dryRunInput : string) : bool :=
  String.eqb (ToLower dryRunInput) "yes".
End to_lower.

(* ===================================================================== *)
(** ** Time: time.Time, time.Duration, Duration.Hours, the age in days *)
(* ===================================================================== *)

(** An instant is a number of nanoseconds on the time line; a
    [time.Duration] is an int64 count of nanoseconds. *)
Definition Time := Z.
Definition Duration := Z.

Definition minDuration : Duration := - 2 ^ 63.
Definition maxDuration : Duration := 2 ^ 63 - 1.
Definition Hour : Duration := 3600 * 1000000000.

(** [t.After(u)] *)
Definition After (t u : Time) : bool := u <? t.

(** [t.Sub(u)]: the difference, saturated at the ends of int64. *)
Definition Sub (t u : Time) : Duration :=
  if t - u <? minDuration then minDuration
  else if maxDuration <? t - u then maxDuration
  else t - u.

(** [time.Since(t)] is [time.Now().Sub(t)]; the reading of the clock is the
    first argument. *)
Definition Since (now t : Time) : Duration := Sub now t.

(** float64: IEEE 754 binary64, round to nearest even. *)
Module F64.
Definition prec : Z := 53.
Definition emax : Z := 1024.
Definition float64 := spec_float.

(** Conversion of an integer: [float64(n)]. *)
Definition of_int (n : Z) : float64 := binary_normalize prec emax n 0 false.
Definition add : float64 -> float64 -> float64 := SFadd prec emax.
Definition div : float64 -> float64 -> float64 := SFdiv prec emax.

(** Conversion to an integer: [int(x)] drops the fraction (rounds toward
    zero).  Not-a-number and the infinities do not occur for the values
    computed below; they are mapped to 0. *)
Definition to_int (x : float64) : Z :=
  match x with
  | S754_finite s m e =>
      let a := match e with
               | Zneg p => Z.pos m / 2 ^ Z.pos p
               | _ => Z.pos m * 2 ^ e
               end in
      if s then - a else a
  | _ => 0
  end.
End F64.

(** [d.Hours()]:
    [hour := d / Hour; nsec := d % Hour;
     return float64(hour) + float64(nsec)/(60*60*1e9)]
    with Go's integer division and remainder, which round toward zero. *)
Definition Hours (d : Duration) : F64.float64 :=
  let hour := Z.quot d Hour in
  let nsec := Z.rem d Hour in
  F64.add (F64.of_int hour) (F64.div (F64.of_int nsec) (F64.of_int 3600000000000)).

(** [int(d.Hours() / 24)] *)
Definition ageDays (d : Duration) : Z :=
  F64.to_int (F64.div (Hours d) (F64.of_int 24)).

Definition Day : Duration := 24 * Hour.

(* ===================================================================== *)
(** ** sort.Slice *)
(* ===================================================================== *)

(** What the programs rely on from [sort.Slice(s, less)]: the slice is
    rearranged (a permutation), and with [less] comparing push times by
    [After] the result has no later element pushed after an earlier one.
    [sort.Slice] is not stable: the order of elements with equal push times
    is left to the implementation. *)
Class SliceSorter := {
  sort_Slice : ∀ A : Type, (A → A → bool) → list A → list A;
  sort_Slice_Permutation :
    ∀ (A : Type) (less : A → A → bool) (s : list A), sort_Slice A less s ≡ₚ s;
  sort_Slice_sorted :
    ∀ (A : Type) (key : A → Time) (s : list A),
      StronglySorted (λ a b, key b ≤ key a)
        (sort_Slice A (λ a b, After (key a) (key b)) s)
}.
Arguments sort_Slice {_ _} less s.

(** The implementation in Go's library for slices of at most 12 elements
    ([insertionSortLessFunc]):
    [for i := a + 1; i < b; i++ {
       for j := i; j > a && less(data[j], data[j-1]); j-- { swap(j, j-1) } }].
    [sunk] holds the already sorted part [data[a:i]] from right to left;
    [sink less x sunk] moves [x = data[i]] to the left while it is less than
    its left neighbour. *)
Fixpoint sink {A} (less : A → A → bool) (x : A) (sunk : list A) : list A :=
  match sunk with
  | [] => [x]
  | y :: sunk' => if less x y then y :: sink less x sunk' else x :: sunk
  end.

Definition insertionSort {A} (less : A → A → bool) (s : list A) : list A :=
  reverse (foldl (λ sunk x, sink less x sunk) [] s).

(** [maxInsertion] of Go's sort package: [sort.Slice] runs the insertion
    sort on slices of at most this many elements and another algorithm on
    longer ones. *)
Definition maxInsertion : nat := 12.

(* ===================================================================== *)
(** ** Data model *)
(* ===================================================================== *)

(** [ecr.ImageDetail], the fields the programs read.  [ImagePushedAt] is a
    pointer the programs test against nil. *)
Record ImageDetail := {
  ImageDigest : string;
  ImageTags : list string;
  ImagePushedAt : option Time
}.

(** The registry's answer to a delete call for a repository and a digest:
    [true] when the call returned no error. *)
Definition Registry := string → string → bool.

(** The spec's vocabulary for what happens to an image. *)
Inductive Action := KEEP | DELETE.
Inductive Reason := RETAINED_RECENT_MATCH | UNTAGGED | AGED_OUT | RETAINED_WITHIN_AGE.
Record ImageDecision := {
  dec_digest : string;
  dec_action : Action;
  dec_reason : Reason
}.

#[export] Instance Action_eq_dec : EqDecision Action.
Proof. solve_decision. Defined.
#[export] Instance Reason_eq_dec : EqDecision Reason.
Proof. solve_decision. Defined.
#[export] Instance ImageDecision_eq_dec : EqDecision ImageDecision.
Proof. solve_decision. Defined.
#[export] Instance ImageDetail_eq_dec : EqDecision ImageDetail.
Proof. solve_decision. Defined.

(** How often a digest occurs among the decisions. *)
Definition occurrences (d : string) (decisions : list ImageDecision) : nat :=
  length (filter (λ dec, dec_digest dec = d) decisions).

(** The number of retained images is the literal 2 in both programs
    ([i < 2]). *)
Definition keepCount : nat := 2.

(* ===================================================================== *)
(** ** scripts/test.go (Variant A) *)
(* ===================================================================== *)

Module TestGo.

Inductive event :=
  | LogRetaining (digest : string)               (* "Retaining image (recent tag)" *)
  | BatchDeleteImage (repoName digest : string)  (* svc.BatchDeleteImage *)
  | LogDeleteError (digest : string)             (* "Error deleting image" *)
  | LogDeleted (digest : string)                 (* "Deleted image" *)
  | LogDryRun (digest : string).                 (* "Dry-run: Would delete image" *)

(** The two nested loops over tags and prefixes that set [matched]
    (test.go, lines 102-113). *)
Definition matched (prefixes : list string) (img : ImageDetail) : bool :=
  existsb (λ tag, existsb (λ prefix, HasPrefix tag prefix) prefixes) (ImageTags img).

Record scanned := {
  taggedMatches : list ImageDetail;
  untagged : list ImageDetail
}.

(** One turn of the first loop over [imageOutput.ImageDetails]
    (test.go, lines 92-118). *)
Definition scan_image (prefixes : list string) (acc : scanned) (img : ImageDetail) : scanned :=
  match ImagePushedAt img with
  | None => acc
  | Some _ =>
      match ImageTags img with
      | [] => {| taggedMatches := taggedMatches acc; untagged := untagged acc ++ [img] |}
      | _ :: _ =>
          if matched prefixes img
          then {| taggedMatches := taggedMatches acc ++ [img]; untagged := untagged acc |}
          else acc
      end
  end.

Definition scan (prefixes : list string) (images : list ImageDetail) : scanned :=
  foldl (scan_image prefixes) {| taggedMatches := []; untagged := [] |} images.

(** [*img.ImagePushedAt] for an image of [taggedMatches], where it is not nil. *)
Definition pushedAt (img : ImageDetail) : Time := default 0 (ImagePushedAt img).

(** The delete-or-dry-run body of the last loop (test.go, lines 144-161). *)
Definition delete_image (dryRun : bool) (svc : Registry) (repoName : string)
    (img : ImageDetail) : list event :=
  let digest := ImageDigest img in
  if negb dryRun then
    [BatchDeleteImage repoName digest;
     if svc repoName digest then LogDeleted digest else LogDeleteError digest]
  else [LogDryRun digest].

Section with_sorter.
Context `{!SliceSorter}.

(** [taggedMatches] after [sort.Slice] by push time, latest first
    (test.go, lines 121-123). *)
Definition ranked (prefixes : list string) (images : list ImageDetail) : list ImageDetail :=
  sort_Slice (λ a b, After (pushedAt a) (pushedAt b)) (taggedMatches (scan prefixes images)).

(** The images with index below 2 in the ranking, and their digests in
    [keepMap] (test.go, lines 126-132). *)
Definition retainedImages (prefixes : list string) (images : list ImageDetail) : list ImageDetail :=
  take keepCount (ranked prefixes images).

Definition keepMap (prefixes : list string) (images : list ImageDetail) : gset string :=
  list_to_set (ImageDigest <$> retainedImages prefixes images).

(** The ranked matches whose digest is not in [keepMap], then the untagged
    images (test.go, lines 135-141). *)
Definition toDelete (prefixes : list string) (images : list ImageDetail) : list ImageDetail :=
  filter (λ img, ImageDigest img ∉ keepMap prefixes images) (ranked prefixes images)
  ++ untagged (scan prefixes images).

(** The body of the loop over the repositories, for one repository. *)
Definition process_repository (prefixes : list string) (dryRun : bool) (svc : Registry)
    (repoName : string) (images : list ImageDetail) : list event :=
  ((λ img, LogRetaining (ImageDigest img)) <$> retainedImages prefixes images)
  ++ flat_map (delete_image dryRun svc repoName) (toDelete prefixes images).

(** The program from the split of the prefix input on: a repository whose
    images could not be described ([None]) or that has none is passed over. *)
Definition main (prefixList : string) (dryRun : bool) (svc : Registry)
    (repos : list (string * option (list ImageDetail))) : list event :=
  let prefixes := Split prefixList comma in
  flat_map (λ repo,
      match repo.2 with
      | None | Some [] => []
      | Some images => process_repository prefixes dryRun svc repo.1 images
      end) repos.

(** The decisions the program takes for a repository: the retained images
    are kept; the images of [toDelete] are deleted, the untagged ones as
    such, the others for being outranked. *)
Definition decisions (prefixes : list string) (images : list ImageDetail) : list ImageDecision :=
  ((λ img, {| dec_digest := ImageDigest img; dec_action := KEEP;
              dec_reason := RETAINED_RECENT_MATCH |}) <$> retainedImages prefixes images)
  ++ ((λ img, {| dec_digest := ImageDigest img; dec_action := DELETE;
                 dec_reason := match ImageTags img with [] => UNTAGGED | _ => AGED_OUT end |})
        <$> toDelete prefixes images).

End with_sorter.
End TestGo.

(* ===================================================================== *)
(** ** scripts/main.go (Variant B) *)
(* ===================================================================== *)

Module MainGo.

Record taggedImage := {
  digest : string;
  tags : list string;
  pushedTime : Time
}.

#[export] Instance taggedImage_eq_dec : EqDecision taggedImage.
Proof. solve_decision. Defined.

Inductive event :=
  | LogUntaggedCandidate (digest : string)                  (* "[DELETE] Untagged image candidate" *)
  | LogKeep (digest : string) (tags : list string)          (* "[KEEP] Image retained (latest tag-match)" *)
  | LogOldImage (digest : string) (age : Z) (tags : list string) (* "[DELETE] Old image to delete" *)
  | BatchDeleteImage (repoName digest : string)             (* svc.BatchDeleteImage *)
  | LogDeleteError (digest : string)                        (* "[ERROR] Error deleting image" *)
  | LogDeleted (digest : string).                           (* "[SUCCESS] Image deleted" *)

#[export] Instance event_eq_dec : EqDecision event.
Proof. solve_decision. Defined.

(** *** Step 7: the groups, one per prefix (main.go, lines 105-123) *)

(** [prefixMatchMap[prefix] = append(prefixMatchMap[prefix], entry)]; a
    missing key reads as the nil slice. *)
Definition append_group (prefix : string) (entry : taggedImage)
    (m : gmap string (list taggedImage)) : gmap string (list taggedImage) :=
  <[prefix := default [] (m !! prefix) ++ [entry]]> m.

(** The loop over the prefixes for one tag: the first prefix the tag starts
    with gets the entry, and the loop ends there ([break]). *)
Fixpoint match_tag (prefixes : list string) (entry : taggedImage) (tag : string)
    (m : gmap string (list taggedImage)) : gmap string (list taggedImage) :=
  match prefixes with
  | [] => m
  | prefix :: prefixes' =>
      if HasPrefix tag prefix then append_group prefix entry m
      else match_tag prefixes' entry tag m
  end.

Definition entry_of (img : ImageDetail) (pushed : Time) : taggedImage :=
  {| digest := ImageDigest img; tags := ImageTags img; pushedTime := pushed |}.

(** One turn of the loop over the images. *)
Definition group_image (prefixes : list string) (m : gmap string (list taggedImage))
    (img : ImageDetail) : gmap string (list taggedImage) :=
  match ImagePushedAt img with
  | None => m
  | Some pushed =>
      match ImageTags img with
      | [] => m
      | _ :: _ =>
          foldl (λ m tag, match_tag prefixes (entry_of img pushed) tag m) m (ImageTags img)
      end
  end.

Definition prefixMatchMap (prefixes : list string) (images : list ImageDetail)
    : gmap string (list taggedImage) :=
  foldl (group_image prefixes) ∅ images.

(** The group of a prefix: [prefixMatchMap[prefix]]. *)
Definition group (prefixes : list string) (images : list ImageDetail) (prefix : string)
    : list taggedImage :=
  default [] (prefixMatchMap prefixes images !! prefix).

(** *** Step 9: the loop body for one image (main.go, lines 138-175) *)

(** [now] is the reading of the clock that [time.Since] takes. *)
Definition process_image (retainedDigests : gset string) (retention : Z) (dryRun : bool)
    (svc : Registry) (repoName : string) (now : Time) (img : ImageDetail) : list event :=
  match ImagePushedAt img with
  | None => []
  | Some pushed =>
      let imageAge := ageDays (Since now pushed) in
      match ImageTags img with
      | [] => [LogUntaggedCandidate (ImageDigest img)]
      | _ :: _ =>
          if decide (ImageDigest img ∈ retainedDigests)
          then [LogKeep (ImageDigest img) (ImageTags img)]
          else if retention <? imageAge
          then LogOldImage (ImageDigest img) imageAge (ImageTags img)
               :: (if negb dryRun
                   then [BatchDeleteImage repoName (ImageDigest img);
                         if svc repoName (ImageDigest img)
                         then LogDeleted (ImageDigest img)
                         else LogDeleteError (ImageDigest img)]
                   else [])
          else []
      end
  end.

(** The ambient clock: the reading that the [n]-th call of [time.Since]
    gets, counted from the start of the program. *)
Definition Clock := nat → Time.

(** The loop over the images: each image with the events of its turn.  The
    clock is read once in every turn that gets past the nil check. *)
Fixpoint iterations (retainedDigests : gset string) (retention : Z) (dryRun : bool)
    (svc : Registry) (repoName : string) (clock : Clock) (tick : nat)
    (images : list ImageDetail) : list (ImageDetail * list event) :=
  match images with
  | [] => []
  | img :: images' =>
      match ImagePushedAt img with
      | None =>
          (img, []) :: iterations retainedDigests retention dryRun svc repoName clock tick images'
      | Some _ =>
          (img, process_image retainedDigests retention dryRun svc repoName (clock tick) img)
          :: iterations retainedDigests retention dryRun svc repoName clock (S tick) images'
      end
  end.

(** The number of clock readings the loop takes. *)
Definition readings (images : list ImageDetail) : nat :=
  length (filter (λ img, is_Some (ImagePushedAt img)) images).

(** What the spec calls the decision, read off the events of an image's
    turn.  A turn that gets past the nil check and emits nothing leaves the
    image in the registry: the spec's KEEP, RETAINED_WITHIN_AGE. *)
Definition decision_of (turn : ImageDetail * list event) : option ImageDecision :=
  match ImagePushedAt turn.1 with
  | None => None
  | Some _ =>
      match turn.2 with
      | [] => Some {| dec_digest := ImageDigest turn.1; dec_action := KEEP;
                      dec_reason := RETAINED_WITHIN_AGE |}
      | LogUntaggedCandidate d :: _ =>
          Some {| dec_digest := d; dec_action := DELETE; dec_reason := UNTAGGED |}
      | LogKeep d _ :: _ =>
          Some {| dec_digest := d; dec_action := KEEP; dec_reason := RETAINED_RECENT_MATCH |}
      | LogOldImage d _ _ :: _ =>
          Some {| dec_digest := d; dec_action := DELETE; dec_reason := AGED_OUT |}
      | _ => None
      end
  end.

Section with_sorter.
Context `{!SliceSorter}.

(** *** Step 8: the digests to retain (main.go, lines 126-135) *)

(** A group after [sort.Slice] by push time, latest first. *)
Definition ranked (images : list taggedImage) : list taggedImage :=
  sort_Slice (λ a b, After (pushedTime a) (pushedTime b)) images.

(** [for i := 0; i < len(images) && i < 2; i++ { retainedDigests[images[i].digest] = true }] *)
Definition retain_group (retainedDigests : gset string) (images : list taggedImage)
    : gset string :=
  foldl (λ retained entry, {[digest entry]} ∪ retained) retainedDigests
        (take keepCount (ranked images)).

(** The loop over the map, for the groups in the order the map yields them. *)
Definition retain_groups (groups : list (string * list taggedImage)) : gset string :=
  foldl (λ retained g, retain_group retained g.2) ∅ groups.

Definition retainedDigests (prefixes : list string) (images : list ImageDetail) : gset string :=
  retain_groups (map_to_list (prefixMatchMap prefixes images)).

(** *** One repository, and the program *)

Definition turns (prefixes : list string) (retention : Z) (dryRun : bool) (svc : Registry)
    (repoName : string) (clock : Clock) (tick : nat) (images : list ImageDetail)
    : list (ImageDetail * list event) :=
  iterations (retainedDigests prefixes images) retention dryRun svc repoName clock tick images.

Definition process_repository (prefixes : list string) (retention : Z) (dryRun : bool)
    (svc : Registry) (repoName : string) (clock : Clock) (tick : nat)
    (images : list ImageDetail) : list event :=
  flat_map snd (turns prefixes retention dryRun svc repoName clock tick images).

Definition decisions (prefixes : list string) (retention : Z) (dryRun : bool) (svc : Registry)
    (repoName : string) (clock : Clock) (tick : nat) (images : list ImageDetail)
    : list ImageDecision :=
  omap decision_of (turns prefixes retention dryRun svc repoName clock tick images).

(** The loop over the repositories; a repository whose images could not be
    described ([None]) or that has none is passed over. *)
Fixpoint repositories (prefixes : list string) (retention : Z) (dryRun : bool)
    (svc : Registry) (clock : Clock) (tick : nat)
    (repos : list (string * option (list ImageDetail))) : list event :=
  match repos with
  | [] => []
  | repo :: repos' =>
      match repo.2 with
      | None | Some [] => repositories prefixes retention dryRun svc clock tick repos'
      | Some images =>
          process_repository prefixes retention dryRun svc repo.1 clock tick images
          ++ repositories prefixes retention dryRun svc clock (tick + readings images)%nat repos'
      end
  end.

(** The program from the split of the prefix input on.  Neither the
    retention period nor the prefix input is checked. *)
Definition main (retention : Z) (prefixList : string) (dryRun : bool) (svc : Registry)
    (clock : Clock) (repos : list (string * option (list ImageDetail))) : list event :=
  repositories (Split prefixList comma) retention dryRun svc clock 0 repos.

End with_sorter.
End MainGo.

(* ===================================================================== *)
(** ** Insertion sort is a [sort.Slice] *)
(* ===================================================================== *)

Section insertion_sort.
Context {A : Type}.
Implicit Types (less : A → A → bool) (key : A → Time) (s sunk : list A).

Lemma sink_Permutation less x sunk : sink less x sunk ≡ₚ x :: sunk.
Proof.
  induction sunk as [|y sunk IH]; simpl; [done|].
  destruct (less x y); [|done].
  rewrite IH. apply Permutation_swap.
Qed.

Lemma foldl_sink_Permutation less s sunk :
  foldl (λ sunk x, sink less x sunk) sunk s ≡ₚ s ++ sunk.
Proof.
  revert sunk. induction s as [|x s IH]; intros sunk; simpl; [done|].
  rewrite IH, sink_Permutation. by rewrite Permutation_middle.
Qed.

Lemma insertionSort_Permutation less s : insertionSort less s ≡ₚ s.
Proof.
  unfold insertionSort.
  rewrite reverse_Permutation, foldl_sink_Permutation. by rewrite app_nil_r.
Qed.

Lemma sink_sorted key x sunk :
  StronglySorted (λ a b, key a ≤ key b) sunk →
  StronglySorted (λ a b, key a ≤ key b)
    (sink (λ a b, After (key a) (key b)) x sunk).
Proof.
  induction 1 as [|y sunk Hs IH Hy]; simpl.
  - repeat constructor.
  - unfold After at 1. destruct (Z.ltb_spec (key y) (key x)) as [Hlt|Hge].
    + constructor; [done|].
      rewrite Forall_forall in Hy |- *. intros z Hz.
      rewrite sink_Permutation in Hz.
      apply elem_of_cons in Hz as [->|Hz]; [lia|by apply Hy].
    + constructor; [by constructor|].
      constructor; [done|].
      rewrite Forall_forall in Hy |- *. intros z Hz.
      specialize (Hy z Hz). lia.
Qed.

Lemma foldl_sink_sorted key s sunk :
  StronglySorted (λ a b, key a ≤ key b) sunk →
  StronglySorted (λ a b, key a ≤ key b)
    (foldl (λ sunk x, sink (λ a b, After (key a) (key b)) x sunk) sunk s).
Proof.
  revert sunk. induction s as [|x s IH]; intros sunk Hs; simpl; [done|].
  by apply IH, sink_sorted.
Qed.

Lemma StronglySorted_reverse (R : relation A) s :
  StronglySorted R s → StronglySorted (flip R) (reverse s).
Proof.
  induction 1 as [|x s Hs IH Hx]; [constructor|].
  rewrite reverse_cons. apply StronglySorted_app_2.
  - intros a b Ha Hb. apply list_elem_of_singleton in Hb as ->.
    rewrite Forall_forall in Hx. apply Hx.
    by apply elem_of_reverse.
  - done.
  - repeat constructor.
Qed.

Lemma insertionSort_sorted key s :
  StronglySorted (λ a b, key b ≤ key a)
    (insertionSort (λ a b, After (key a) (key b)) s).
Proof.
  unfold insertionSort.
  apply (StronglySorted_reverse (λ a b, key a ≤ key b)).
  apply foldl_sink_sorted. constructor.
Qed.

(** Insertion sort keeps elements with the same push time in the order
    they had. *)
Lemma sink_same_key key k x sunk :
  filter (λ a, key a = k) (sink (λ a b, After (key a) (key b)) x sunk)
  = filter (λ a, key a = k) (x :: sunk).
Proof.
  induction sunk as [|y sunk IH]; simpl; [done|].
  unfold After at 1. destruct (Z.ltb_spec (key y) (key x)) as [Hlt|Hge]; [|done].
  rewrite (filter_cons _ y), IH, !filter_cons.
  repeat case_decide; try done; lia.
Qed.

Lemma foldl_sink_same_key key k s sunk :
  filter (λ a, key a = k)
    (foldl (λ sunk x, sink (λ a b, After (key a) (key b)) x sunk) sunk s)
  = reverse (filter (λ a, key a = k) s) ++ filter (λ a, key a = k) sunk.
Proof.
  revert sunk. induction s as [|x s IH]; intros sunk; simpl; [done|].
  rewrite IH, sink_same_key, !filter_cons.
  case_decide; [|done].
  by rewrite reverse_cons, <- app_assoc.
Qed.

Lemma insertionSort_stable key k s :
  filter (λ a, key a = k) (insertionSort (λ a b, After (key a) (key b)) s)
  = filter (λ a, key a = k) s.
Proof.
  unfold insertionSort.
  rewrite filter_reverse, foldl_sink_same_key, filter_nil, app_nil_r.
  apply reverse_involutive.
Qed.
End insertion_sort.

(** Go's [sort.Slice] on slices of at most [maxInsertion] elements; it
    stands for [sort.Slice] at such lengths only. *)
#[export] Instance GoInsertionSort : SliceSorter := {|
  sort_Slice := @insertionSort;
  sort_Slice_Permutation := @insertionSort_Permutation;
  sort_Slice_sorted := @insertionSort_sorted
|}.

(* ===================================================================== *)
(** ** Lists, sets and the split *)
(* ===================================================================== *)

Section list_facts.
Context {A : Type}.
Implicit Types (l : list A) (f : A → string).

Lemma filter_all (P : A → Prop) `{!∀ x, Decision (P x)} l :
  Forall P l → filter P l = l.
Proof.
  induction 1 as [|x l Hx _ IH]; [done|].
  by rewrite filter_cons_True, IH.
Qed.

Lemma filter_none (P : A → Prop) `{!∀ x, Decision (P x)} l :
  Forall (λ x, ¬ P x) l → filter P l = [].
Proof.
  induction 1 as [|x l Hx _ IH]; [done|].
  by rewrite filter_cons_False.
Qed.

(** With distinct keys, the elements whose key is not among the keys of the
    first [n] are the elements after the first [n]. *)
Lemma filter_not_taken_aux f n l (seen : gset string) :
  NoDup (f <$> l) →
  (∀ x, x ∈ l → f x ∉ seen) →
  filter (λ x, f x ∉ seen ∪ list_to_set (f <$> take n l)) l = drop n l.
Proof.
  revert n seen. induction l as [|x l IH]; intros n seen Hnd Hseen.
  { by destruct n. }
  destruct n as [|n].
  - simpl. apply filter_all, Forall_forall. intros y Hy.
    specialize (Hseen y Hy). set_solver.
  - rewrite fmap_cons in Hnd. apply NoDup_cons in Hnd as [Hx Hnd].
    cbn [take drop fmap list_fmap list_to_set foldr].
    rewrite filter_cons_False by set_solver.
    cbn [list_to_set]. rewrite (assoc_L (∪)).
    apply IH; [done|].
    intros y Hy. apply not_elem_of_union; split.
    + apply Hseen. by right.
    + intros Heq%elem_of_singleton. apply Hx. rewrite <- Heq.
      by apply list_elem_of_fmap_2.
Qed.

Lemma filter_not_taken f n l :
  NoDup (f <$> l) →
  filter (λ x, f x ∉ (list_to_set (f <$> take n l) : gset string)) l = drop n l.
Proof.
  intros Hnd.
  rewrite <- (filter_not_taken_aux f n l ∅ Hnd) by set_solver.
  apply list_filter_iff. intros x. set_solver.
Qed.

Lemma filter_disjoint_Permutation (P Q : A → Prop)
    `{!∀ x, Decision (P x)} `{!∀ x, Decision (Q x)} l :
  (∀ x, P x → Q x → False) →
  filter P l ++ filter Q l ≡ₚ filter (λ x, P x ∨ Q x) l.
Proof.
  intros Hdis. induction l as [|x l IH]; [done|].
  rewrite !filter_cons.
  destruct (decide (P x)) as [HP|HP], (decide (Q x)) as [HQ|HQ].
  - destruct (Hdis x HP HQ).
  - rewrite decide_True by tauto. simpl. by rewrite IH.
  - rewrite decide_True by tauto. rewrite <- Permutation_middle. by rewrite IH.
  - rewrite decide_False by tauto. done.
Qed.

Lemma NoDup_fmap_filter {B} (g : A → B) (P : A → Prop) `{!∀ x, Decision (P x)} l :
  NoDup (g <$> l) → NoDup (g <$> filter P l).
Proof.
  intros Hnd. apply (sublist_NoDup _ _ Hnd).
  apply fmap_sublist, sublist_filter.
Qed.
End list_facts.

Lemma occurrences_once (d : string) (decisions : list ImageDecision) :
  NoDup (dec_digest <$> decisions) →
  d ∈ dec_digest <$> decisions →
  occurrences d decisions = 1%nat.
Proof.
  unfold occurrences. induction decisions as [|dec decisions IH]; intros Hnd Hin.
  { by apply elem_of_nil in Hin. }
  rewrite fmap_cons in Hnd, Hin. apply NoDup_cons in Hnd as [Hdec Hnd].
  rewrite filter_cons. case_decide as Heq.
  - subst d. simpl. f_equal. apply length_zero_iff_nil, filter_none, Forall_forall.
    intros dec' Hdec' Heq. apply Hdec. rewrite <- Heq. by apply list_elem_of_fmap_2.
  - apply elem_of_cons in Hin as [->|Hin]; [done|]. by apply IH.
Qed.

Lemma occurrences_none (d : string) (decisions : list ImageDecision) :
  d ∉ dec_digest <$> decisions → occurrences d decisions = 0%nat.
Proof.
  intros Hd. unfold occurrences.
  apply length_zero_iff_nil, filter_none, Forall_forall.
  intros dec Hdec Heq. apply Hd. rewrite <- Heq. by apply list_elem_of_fmap_2.
Qed.

Lemma HasPrefix_empty (s : string) : HasPrefix s "" = true.
Proof. by destruct s. Qed.

Lemma Split_nonempty (s : string) (sep : ascii) : Split s sep ≠ [].
Proof.
  destruct s as [|c s]; simpl; [done|].
  destruct (Ascii.eqb c sep); [done|]. by destruct (Split s sep).
Qed.

(* ===================================================================== *)
(** ** test.go: the scan, the ranking and the decisions *)
(* ===================================================================== *)

Module TestGoFacts.
Import TestGo.

(** The images that end in [taggedMatches], and those that end in
    [untagged]. *)
Definition is_match (prefixes : list string) (img : ImageDetail) : Prop :=
  is_Some (ImagePushedAt img) ∧ ImageTags img ≠ [] ∧ matched prefixes img = true.

Definition is_untagged (img : ImageDetail) : Prop :=
  is_Some (ImagePushedAt img) ∧ ImageTags img = [].

#[export] Instance is_match_dec prefixes img : Decision (is_match prefixes img).
Proof. unfold is_match. apply _. Defined.
#[export] Instance is_untagged_dec img : Decision (is_untagged img).
Proof. unfold is_untagged. apply _. Defined.

Lemma scan_image_spec prefixes acc img :
  scan_image prefixes acc img =
  {| taggedMatches := taggedMatches acc ++ filter (is_match prefixes) [img];
     untagged := untagged acc ++ filter is_untagged [img] |}.
Proof.
  unfold scan_image. rewrite !filter_cons, !filter_nil.
  destruct acc as [tm un]; simpl.
  destruct (ImagePushedAt img) as [t|] eqn:Ht.
  - destruct (ImageTags img) as [|tag tags'] eqn:Htags.
    + rewrite decide_False, decide_True; [by rewrite app_nil_r| |].
      * unfold is_untagged. by rewrite Ht, Htags.
      * unfold is_match. rewrite Htags. tauto.
    + rewrite (decide_False (P := is_untagged img)).
      2:{ unfold is_untagged. rewrite Htags. intros [_ ?]. done. }
      destruct (matched prefixes img) eqn:Hm.
      * rewrite decide_True; [by rewrite app_nil_r|].
        unfold is_match. by rewrite Ht, Htags, Hm.
      * rewrite decide_False; [by rewrite !app_nil_r|].
        unfold is_match. rewrite Hm. intros (_ & _ & ?). done.
  - rewrite !decide_False; [by rewrite !app_nil_r| |].
    + unfold is_untagged. rewrite Ht. intros [[? ?] _]. done.
    + unfold is_match. rewrite Ht. intros [[? ?] _]. done.
Qed.

Lemma foldl_scan_image prefixes acc images :
  foldl (scan_image prefixes) acc images =
  {| taggedMatches := taggedMatches acc ++ filter (is_match prefixes) images;
     untagged := untagged acc ++ filter is_untagged images |}.
Proof.
  revert acc. induction images as [|img images IH]; intros acc; simpl.
  { destruct acc. by rewrite !filter_nil, !app_nil_r. }
  rewrite IH, scan_image_spec. simpl.
  rewrite <- !app_assoc. f_equal; f_equal;
    by rewrite <- (filter_app _ [img] images).
Qed.

Lemma taggedMatches_scan prefixes images :
  taggedMatches (scan prefixes images) = filter (is_match prefixes) images.
Proof. unfold scan. by rewrite foldl_scan_image. Qed.

Lemma untagged_scan prefixes images :
  untagged (scan prefixes images) = filter is_untagged images.
Proof. unfold scan. by rewrite foldl_scan_image. Qed.

Section with_sorter.
Context `{!SliceSorter}.

Lemma matches_ranked_Permutation prefixes images :
  ranked prefixes images ≡ₚ filter (is_match prefixes) images.
Proof. unfold ranked. by rewrite sort_Slice_Permutation, taggedMatches_scan. Qed.

Lemma matches_ranked_sorted prefixes images :
  StronglySorted (λ a b, pushedAt b ≤ pushedAt a) (ranked prefixes images).
Proof. apply (sort_Slice_sorted _ pushedAt). Qed.

(** With distinct digests, the images that are not retained are those
    after the first two of the ranking. *)
Lemma toDelete_distinct prefixes images :
  NoDup (ImageDigest <$> images) →
  toDelete prefixes images =
  drop keepCount (ranked prefixes images) ++ filter is_untagged images.
Proof.
  intros Hnd. unfold toDelete, keepMap, retainedImages.
  rewrite untagged_scan. f_equal. apply filter_not_taken.
  rewrite matches_ranked_Permutation. by apply NoDup_fmap_filter.
Qed.

(** With distinct digests, the decisions name the matches and the untagged
    images with a push time, each once. *)
Lemma decisions_digests prefixes images :
  NoDup (ImageDigest <$> images) →
  dec_digest <$> decisions prefixes images
  ≡ₚ ImageDigest <$> filter (λ img, is_match prefixes img ∨ is_untagged img) images.
Proof.
  intros Hnd. unfold decisions, retainedImages.
  rewrite toDelete_distinct by done.
  rewrite fmap_app, <- !list_fmap_compose.
  change (dec_digest ∘ _) with ImageDigest.
  etransitivity;
    [|apply fmap_Permutation, filter_disjoint_Permutation;
      intros img (_ & Hne & _) (_ & Hnil); done].
  rewrite <- matches_ranked_Permutation, !fmap_app, (assoc_L (++)), <- fmap_app.
  by rewrite take_drop.
Qed.

Lemma decisions_NoDup prefixes images :
  NoDup (ImageDigest <$> images) →
  NoDup (dec_digest <$> decisions prefixes images).
Proof.
  intros Hnd. rewrite decisions_digests by done. by apply NoDup_fmap_filter.
Qed.

End with_sorter.
End TestGoFacts.

(* ===================================================================== *)
(** ** main.go: the groups, the retained digests and the turns *)
(* ===================================================================== *)

Module MainGoFacts.
Import MainGo.

(** The prefix whose group a tag is filed under: the first prefix of the
    list that the tag starts with. *)
Fixpoint first_match (prefixes : list string) (tag : string) : option string :=
  match prefixes with
  | [] => None
  | prefix :: prefixes' =>
      if HasPrefix tag prefix then Some prefix else first_match prefixes' tag
  end.

(** The entries that one image adds to the group of [prefix]: one for each
    of its tags filed under that prefix. *)
Definition entries_for (prefixes : list string) (prefix : string) (img : ImageDetail)
    : list taggedImage :=
  match ImagePushedAt img with
  | None => []
  | Some pushed =>
      (λ _, entry_of img pushed)
        <$> filter (λ tag, first_match prefixes tag = Some prefix) (ImageTags img)
  end.

Lemma match_tag_first_match prefixes entry tag m :
  match_tag prefixes entry tag m =
  match first_match prefixes tag with
  | Some prefix => append_group prefix entry m
  | None => m
  end.
Proof.
  induction prefixes as [|p prefixes IH]; simpl; [done|].
  by destruct (HasPrefix tag p).
Qed.

Lemma first_match_elem_of prefixes tag prefix :
  first_match prefixes tag = Some prefix →
  prefix ∈ prefixes ∧ HasPrefix tag prefix = true.
Proof.
  induction prefixes as [|p prefixes IH]; simpl; [done|].
  destruct (HasPrefix tag p) eqn:Hp.
  - intros [= <-]. split; [by left|done].
  - intros [Hin Hpre]%IH. split; [by right|done].
Qed.

Lemma first_match_is_Some prefixes tag prefix :
  prefix ∈ prefixes → HasPrefix tag prefix = true →
  is_Some (first_match prefixes tag).
Proof.
  induction prefixes as [|p prefixes IH]; simpl.
  { by intros ?%elem_of_nil. }
  intros Hin Hpre. destruct (HasPrefix tag p) eqn:Hp; [by eexists|].
  apply elem_of_cons in Hin as [->|Hin]; [congruence|by apply IH].
Qed.

Lemma lookup_append_group prefix entry (m : gmap string (list taggedImage)) q :
  default [] (append_group prefix entry m !! q) =
  default [] (m !! q) ++ (if decide (prefix = q) then [entry] else []).
Proof.
  unfold append_group. destruct (decide (prefix = q)) as [->|Hne].
  - by rewrite lookup_insert_eq.
  - by rewrite lookup_insert_ne, app_nil_r.
Qed.

Lemma lookup_foldl_match_tag prefixes entry tags' (m : gmap string (list taggedImage)) q :
  default [] (foldl (λ m tag, match_tag prefixes entry tag m) m tags' !! q) =
  default [] (m !! q)
  ++ ((λ _, entry) <$> filter (λ tag, first_match prefixes tag = Some q) tags').
Proof.
  revert m. induction tags' as [|tag tags' IH]; intros m.
  { by rewrite filter_nil, app_nil_r. }
  cbn [foldl]. rewrite IH, match_tag_first_match, filter_cons.
  destruct (first_match prefixes tag) as [p|] eqn:Hp.
  - rewrite lookup_append_group, <- app_assoc. f_equal.
    destruct (decide (p = q)) as [->|Hne].
    + by rewrite decide_True.
    + rewrite decide_False; [done|congruence].
  - by rewrite decide_False.
Qed.

Lemma lookup_group_image prefixes (m : gmap string (list taggedImage)) img q :
  default [] (group_image prefixes m img !! q) =
  default [] (m !! q) ++ entries_for prefixes q img.
Proof.
  unfold group_image, entries_for.
  destruct (ImagePushedAt img) as [pushed|]; [|by rewrite app_nil_r].
  destruct (ImageTags img) as [|tag tags'] eqn:Htags.
  - by rewrite filter_nil, app_nil_r.
  - apply lookup_foldl_match_tag.
Qed.

Lemma lookup_foldl_group_image prefixes (m : gmap string (list taggedImage)) images q :
  default [] (foldl (group_image prefixes) m images !! q) =
  default [] (m !! q) ++ (images ≫= entries_for prefixes q).
Proof.
  revert m. induction images as [|img images IH]; intros m; simpl.
  { by rewrite app_nil_r. }
  by rewrite IH, lookup_group_image, <- app_assoc.
Qed.

(** The group of a prefix holds, image by image and tag by tag, one entry
    for each tag filed under the prefix. *)
Lemma group_entries prefixes images prefix :
  group prefixes images prefix = images ≫= entries_for prefixes prefix.
Proof.
  unfold group, prefixMatchMap.
  by rewrite lookup_foldl_group_image, lookup_empty.
Qed.

Lemma elem_of_group prefixes images prefix entry :
  entry ∈ group prefixes images prefix ↔
  ∃ img pushed tag,
    img ∈ images ∧ ImagePushedAt img = Some pushed ∧ tag ∈ ImageTags img ∧
    first_match prefixes tag = Some prefix ∧ entry = entry_of img pushed.
Proof.
  rewrite group_entries, list_elem_of_bind. unfold entries_for. split.
  - intros (img & Hentry & Himg).
    destruct (ImagePushedAt img) as [pushed|] eqn:Hp; [|by apply elem_of_nil in Hentry].
    apply list_elem_of_fmap in Hentry as (tag & -> & [Hfirst Htag]%list_elem_of_filter).
    by exists img, pushed, tag.
  - intros (img & pushed & tag & Himg & Hp & Htag & Hfirst & ->).
    exists img. split; [|done]. rewrite Hp.
    apply list_elem_of_fmap. exists tag. split; [done|].
    by apply list_elem_of_filter.
Qed.

Section with_sorter.
Context `{!SliceSorter}.

Lemma group_ranked_Permutation (images : list taggedImage) : ranked images ≡ₚ images.
Proof. apply sort_Slice_Permutation. Qed.

Lemma group_ranked_sorted (images : list taggedImage) :
  StronglySorted (λ a b, pushedTime b ≤ pushedTime a) (ranked images).
Proof. apply (sort_Slice_sorted _ pushedTime). Qed.

Lemma retain_group_union retained (images : list taggedImage) :
  retain_group retained images =
  retained ∪ list_to_set (digest <$> take keepCount (ranked images)).
Proof.
  unfold retain_group. generalize (take keepCount (ranked images)) as top.
  intros top. revert retained.
  induction top as [|entry top IH]; intros retained; simpl.
  - by rewrite (right_id_L ∅ (∪)).
  - rewrite IH. set_solver.
Qed.

Lemma elem_of_foldl_retain_group d acc (groups : list (string * list taggedImage)) :
  d ∈ foldl (λ retained g, retain_group retained g.2) acc groups ↔
  d ∈ acc ∨ ∃ g, g ∈ groups ∧ d ∈ digest <$> take keepCount (ranked g.2).
Proof.
  revert acc. induction groups as [|g groups IH]; intros acc; simpl.
  { split; [by left|]. intros [?|(g & Hg & _)]; [done|]. by apply elem_of_nil in Hg. }
  rewrite IH, retain_group_union, elem_of_union, elem_of_list_to_set. split.
  - intros [[?|?]|(g' & Hg' & ?)].
    + by left.
    + right. exists g. split; [by left|done].
    + right. exists g'. split; [by right|done].
  - intros [?|(g' & [->|Hg']%elem_of_cons & ?)].
    + by left; left.
    + by left; right.
    + right. by exists g'.
Qed.

Lemma elem_of_retain_groups d (groups : list (string * list taggedImage)) :
  d ∈ retain_groups groups ↔
  ∃ g, g ∈ groups ∧ d ∈ digest <$> take keepCount (ranked g.2).
Proof.
  unfold retain_groups. rewrite elem_of_foldl_retain_group.
  split; [intros [?%elem_of_empty|?]; done|by right].
Qed.

(** The order in which the map hands out its groups does not matter. *)
Lemma retain_groups_Permutation (groups groups' : list (string * list taggedImage)) :
  groups ≡ₚ groups' → retain_groups groups = retain_groups groups'.
Proof.
  intros Hperm. apply set_eq. intros d. rewrite !elem_of_retain_groups.
  split; intros (g & Hg & Hd); exists g; split; try done.
  - by rewrite <- Hperm.
  - by rewrite Hperm.
Qed.

(** A digest is retained exactly when it is among the first two of the
    ranking of some group. *)
Lemma elem_of_retainedDigests prefixes images d :
  d ∈ retainedDigests prefixes images ↔
  ∃ prefix entry,
    entry ∈ take keepCount (ranked (group prefixes images prefix)) ∧ digest entry = d.
Proof.
  unfold retainedDigests. rewrite elem_of_retain_groups. split.
  - intros ([prefix entries] & Hg%elem_of_map_to_list & Hd).
    apply list_elem_of_fmap in Hd as (entry & -> & Hentry).
    exists prefix, entry. split; [|done]. unfold group. by rewrite Hg.
  - intros (prefix & entry & Hentry & <-). unfold group in Hentry.
    destruct (prefixMatchMap prefixes images !! prefix) as [entries|] eqn:Hg.
    + exists (prefix, entries). split; [by apply elem_of_map_to_list|].
      by apply list_elem_of_fmap_2.
    + simpl in Hentry.
      pose proof (group_ranked_Permutation []) as Hnil.
      apply Permutation_nil_r in Hnil. rewrite Hnil in Hentry.
      by apply elem_of_nil in Hentry.
Qed.

End with_sorter.

(** *** The loop body and the turns *)

Section turns.
Context (retained : gset string) (retention : Z) (dryRun : bool) (svc : Registry)
  (repoName : string).

Lemma process_image_no_push_time now img :
  ImagePushedAt img = None →
  process_image retained retention dryRun svc repoName now img = [].
Proof. unfold process_image. by intros ->. Qed.

Lemma process_image_untagged now img pushed :
  ImagePushedAt img = Some pushed → ImageTags img = [] →
  process_image retained retention dryRun svc repoName now img
  = [LogUntaggedCandidate (ImageDigest img)].
Proof. unfold process_image. by intros -> ->. Qed.

Lemma process_image_retained now img pushed :
  ImagePushedAt img = Some pushed → ImageTags img ≠ [] →
  ImageDigest img ∈ retained →
  process_image retained retention dryRun svc repoName now img
  = [LogKeep (ImageDigest img) (ImageTags img)].
Proof.
  unfold process_image. intros -> Htags Hin.
  destruct (ImageTags img); [done|]. by rewrite decide_True.
Qed.

Lemma process_image_old now img pushed :
  ImagePushedAt img = Some pushed → ImageTags img ≠ [] →
  ImageDigest img ∉ retained →
  retention < ageDays (Since now pushed) →
  process_image retained retention dryRun svc repoName now img
  = LogOldImage (ImageDigest img) (ageDays (Since now pushed)) (ImageTags img)
    :: (if negb dryRun
        then [BatchDeleteImage repoName (ImageDigest img);
              if svc repoName (ImageDigest img)
              then LogDeleted (ImageDigest img)
              else LogDeleteError (ImageDigest img)]
        else []).
Proof.
  unfold process_image. intros -> Htags Hin Hage.
  destruct (ImageTags img); [done|]. rewrite decide_False by done.
  by apply Z.ltb_lt in Hage as ->.
Qed.

Lemma process_image_within_age now img pushed :
  ImagePushedAt img = Some pushed → ImageTags img ≠ [] →
  ImageDigest img ∉ retained →
  ageDays (Since now pushed) ≤ retention →
  process_image retained retention dryRun svc repoName now img = [].
Proof.
  unfold process_image. intros -> Htags Hin Hage.
  destruct (ImageTags img); [done|]. rewrite decide_False by done.
  by apply Z.ltb_ge in Hage as ->.
Qed.

(** Every turn past the nil check ends in a decision about its image. *)
Lemma decision_of_process_image now img pushed :
  ImagePushedAt img = Some pushed →
  ∃ action reason,
    decision_of (img, process_image retained retention dryRun svc repoName now img)
    = Some {| dec_digest := ImageDigest img; dec_action := action; dec_reason := reason |}.
Proof.
  intros Hp. unfold decision_of, process_image. simpl. rewrite Hp.
  destruct (ImageTags img); [by eexists _, _|].
  case_decide; [by eexists _, _|].
  destruct (retention <? _); by eexists _, _.
Qed.

Lemma iterations_fst clock tick images :
  (iterations retained retention dryRun svc repoName clock tick images).*1 = images.
Proof.
  revert tick. induction images as [|img images IH]; intros tick; simpl; [done|].
  destruct (ImagePushedAt img); simpl; by rewrite IH.
Qed.

Lemma elem_of_iterations clock tick images turn :
  turn ∈ iterations retained retention dryRun svc repoName clock tick images →
  turn.1 ∈ images ∧
  ∃ n, turn.2 = process_image retained retention dryRun svc repoName (clock n) turn.1.
Proof.
  revert tick. induction images as [|img images IH]; intros tick; simpl.
  { by intros ?%elem_of_nil. }
  destruct (ImagePushedAt img) as [pushed|] eqn:Hp.
  - intros [->|Hin]%elem_of_cons.
    + split; [by left|]. by exists tick.
    + destruct (IH _ Hin) as [? ?]. split; [by right|done].
  - intros [->|Hin]%elem_of_cons.
    + split; [by left|]. exists tick. simpl. by rewrite process_image_no_push_time.
    + destruct (IH _ Hin) as [? ?]. split; [by right|done].
Qed.

Lemma iterations_elem_of clock tick images img :
  img ∈ images →
  ∃ n, (img, process_image retained retention dryRun svc repoName (clock n) img)
       ∈ iterations retained retention dryRun svc repoName clock tick images.
Proof.
  revert tick. induction images as [|img' images IH]; intros tick.
  { by intros ?%elem_of_nil. }
  intros [->|Hin]%elem_of_cons; simpl.
  - exists tick. destruct (ImagePushedAt img') eqn:Hp; [by left|].
    rewrite process_image_no_push_time by done. by left.
  - destruct (ImagePushedAt img').
    + destruct (IH (S tick) Hin) as [n Hn]. exists n. by right.
    + destruct (IH tick Hin) as [n Hn]. exists n. by right.
Qed.

(** The turns depend on the clock only through the readings taken. *)
Lemma iterations_clock clock clock' tick images :
  (∀ n, (tick ≤ n < tick + readings images)%nat → clock n = clock' n) →
  iterations retained retention dryRun svc repoName clock tick images
  = iterations retained retention dryRun svc repoName clock' tick images.
Proof.
  revert tick. induction images as [|img images IH]; intros tick Hclock; simpl; [done|].
  unfold readings in Hclock. rewrite filter_cons in Hclock.
  destruct (ImagePushedAt img) as [pushed|] eqn:Hp.
  - rewrite decide_True in Hclock by (by eexists). simpl in Hclock.
    rewrite (Hclock tick) by lia. f_equal.
    apply IH. intros n Hn. apply Hclock. unfold readings in Hn. lia.
  - rewrite decide_False in Hclock by (intros [? ?]; done).
    f_equal. by apply IH.
Qed.

Lemma decisions_of_iterations clock tick images :
  dec_digest <$> omap decision_of
    (iterations retained retention dryRun svc repoName clock tick images)
  = ImageDigest <$> filter (λ img, is_Some (ImagePushedAt img)) images.
Proof.
  revert tick. induction images as [|img images IH]; intros tick; simpl; [done|].
  rewrite filter_cons. destruct (ImagePushedAt img) as [pushed|] eqn:Hp.
  - rewrite decide_True by (by eexists). simpl.
    destruct (decision_of_process_image (clock tick) img pushed Hp) as (a & r & ->).
    simpl. by rewrite IH.
  - rewrite decide_False by (intros [? ?]; done). simpl.
    unfold decision_of at 1. simpl. rewrite Hp. apply IH.
Qed.
End turns.
End MainGoFacts.

(* ===================================================================== *)
(** ** The age in days of an image that is not pushed in the future *)
(* ===================================================================== *)

Module AgeFacts.
Import F64.

(** A float64 with the sign bit clear. *)
Definition sign_clear (x : float64) : Prop :=
  match x with
  | S754_zero s | S754_infinity s | S754_finite s _ _ => s = false
  | S754_nan => True
  end.

Lemma binary_round_aux_sign_clear mx ex lx :
  sign_clear (binary_round_aux prec emax false mx ex lx).
Proof.
  unfold binary_round_aux.
  destruct (shr_fexp prec emax mx ex lx) as [mrs' e'].
  destruct (shr_fexp prec emax _ e' loc_Exact) as [mrs'' e''].
  destruct (shr_m mrs''); simpl; [done| |done].
  by destruct (e'' <=? emax - prec).
Qed.

Lemma binary_round_sign_clear m e : sign_clear (binary_round prec emax false m e).
Proof.
  unfold binary_round. destruct (shl_align _ _ _) as [mz ez].
  apply binary_round_aux_sign_clear.
Qed.

Lemma of_int_sign_clear n : 0 ≤ n → sign_clear (of_int n).
Proof.
  intros Hn. unfold of_int, binary_normalize.
  destruct n as [|m|m]; [done| |lia]. apply binary_round_sign_clear.
Qed.

Lemma div_sign_clear x y : sign_clear x → sign_clear y → sign_clear (div x y).
Proof.
  unfold div, SFdiv.
  destruct x as [sx|sx| |sx mx ex], y as [sy|sy| |sy my ey]; simpl;
    try done; try (by intros -> ->).
  intros -> ->. destruct (SFdiv_core_binary _ _ _ _ _ _) as [[mz ez] lz].
  apply binary_round_aux_sign_clear.
Qed.

Lemma add_sign_clear x y : sign_clear x → sign_clear y → sign_clear (add x y).
Proof.
  unfold add, SFadd.
  destruct x as [sx|sx| |sx mx ex], y as [sy|sy| |sy my ey]; simpl;
    try done; try (by intros -> ->).
  intros -> ->. simpl. apply binary_round_sign_clear.
Qed.

Lemma to_int_sign_clear x : sign_clear x → 0 ≤ to_int x.
Proof.
  destruct x as [s|s| |s m e]; simpl; try done.
  intros ->. destruct e as [|p|p].
  - lia.
  - apply Z.mul_nonneg_nonneg; [lia|]. apply Z.pow_nonneg. lia.
  - apply Z.div_pos; [lia|]. apply Z.pow_pos_nonneg; lia.
Qed.

Lemma Hours_sign_clear (d : Duration) : 0 ≤ d → sign_clear (Hours d).
Proof.
  intros Hd. unfold Hours. apply add_sign_clear.
  - apply of_int_sign_clear, Z.quot_pos; [done|]. by compute.
  - apply div_sign_clear; apply of_int_sign_clear; [|done].
    apply Z.rem_nonneg; [|done]. by compute.
Qed.

(** The age of an image is not negative unless it was pushed after the
    reading of the clock. *)
Lemma ageDays_nonneg (d : Duration) : 0 ≤ d → 0 ≤ ageDays d.
Proof.
  intros Hd. unfold ageDays.
  apply to_int_sign_clear, div_sign_clear; [by apply Hours_sign_clear|].
  by apply of_int_sign_clear.
Qed.

Lemma Since_nonneg (now pushed : Time) : pushed ≤ now → 0 ≤ Since now pushed.
Proof.
  intros Hle. unfold Since, Sub.
  destruct (Z.ltb_spec (now - pushed) minDuration) as [Hlt|_].
  { unfold minDuration in Hlt. lia. }
  destruct (Z.ltb_spec maxDuration (now - pushed)); [by compute|lia].
Qed.
End AgeFacts.

(* ===================================================================== *)
(** ** The claims of the specification, C1 to C10 *)
(* ===================================================================== *)

Import MainGoFacts TestGoFacts.

(** Images of the examples. *)
Definition image (d : string) (ts : list string) (pushed : option Time) : ImageDetail :=
  {| ImageDigest := d; ImageTags := ts; ImagePushedAt := pushed |}.

Definition deletes : Registry := λ _ _, true.

(** *** The scenarios of the spec, run on the programs *)

(** Two images tagged [latest] and an older one tagged [dev], prefixes
    [latest] and [dev]: test.go keeps the two [latest] images and deletes the
    [dev] image; main.go retains all three. *)
Example scenario_1 :
  let images := [image "L0" ["latest"] (Some 3); image "L1" ["latest"] (Some 2);
                 image "D" ["dev"] (Some 1)] in
  @TestGo.decisions GoInsertionSort ["latest"; "dev"] images
  = [ {| dec_digest := "L0"; dec_action := KEEP; dec_reason := RETAINED_RECENT_MATCH |};
      {| dec_digest := "L1"; dec_action := KEEP; dec_reason := RETAINED_RECENT_MATCH |};
      {| dec_digest := "D"; dec_action := DELETE; dec_reason := AGED_OUT |} ] ∧
  @MainGo.decisions GoInsertionSort ["latest"; "dev"] 10 false deletes "repo"
    (λ _, 3 + 40 * Day) 0%nat images
  = [ {| dec_digest := "L0"; dec_action := KEEP; dec_reason := RETAINED_RECENT_MATCH |};
      {| dec_digest := "L1"; dec_action := KEEP; dec_reason := RETAINED_RECENT_MATCH |};
      {| dec_digest := "D"; dec_action := KEEP; dec_reason := RETAINED_RECENT_MATCH |} ].
Proof. cbv zeta. split; by vm_compute. Qed.

(** A tagged image that matches no prefix, pushed 40 days ago, with a
    retention period of 10 days, is deleted by main.go; an image without a
    push time gets no decision from either program. *)
Example scenarios_3_and_5 :
  @MainGo.process_repository GoInsertionSort ["latest"] 10 false deletes "repo"
    (λ _, 40 * Day) 0%nat [image "A" ["foo"] (Some 0)]
  = [MainGo.LogOldImage "A" 40 ["foo"]; MainGo.BatchDeleteImage "repo" "A";
     MainGo.LogDeleted "A"] ∧
  @MainGo.decisions GoInsertionSort ["latest"] 10 false deletes "repo"
    (λ _, 40 * Day) 0%nat [image "N" ["latest"] None] = [] ∧
  @TestGo.decisions GoInsertionSort ["latest"] [image "N" ["latest"] None] = [].
Proof. split_and!; by vm_compute. Qed.

(** The age on whole days and just below them. *)
Example ageDays_samples :
  ageDays (10 * Day) = 10 ∧ ageDays (11 * Day - 1) = 10 ∧
  ageDays (40 * Day + 5 * Hour) = 40 ∧ ageDays (- (12 * Hour)) = 0.
Proof. split_and!; by vm_compute. Qed.

(** *** C1: groups and retention under main.go *)

(** C1, as stated, fails.  With the prefixes [dev] and [dev-], the image A
    tagged [dev-1] matches both; the loop over the prefixes files it under
    [dev] and stops, so the group of [dev-] does not hold it.  In the group
    of [dev] it ranks third behind B and C and is not retained, although it
    is the only image that matches [dev-]. *)
Lemma C1_counterexample :
  let prefixes := ["dev"; "dev-"] in
  let A := image "A" ["dev-1"] (Some 1) in
  let images := [A; image "B" ["devx"] (Some 3); image "C" ["devy"] (Some 2)] in
  HasPrefix "dev-1" "dev" = true ∧ HasPrefix "dev-1" "dev-" = true ∧
  A ∈ images ∧
  MainGo.group prefixes images "dev-" = [] ∧
  ("A" ∉ @MainGo.retainedDigests GoInsertionSort prefixes images) ∧
  (@MainGo.decisions GoInsertionSort prefixes 10 false deletes "repo"
    (λ _, 1 + 20 * Day) 0%nat images)
  = [ {| dec_digest := "A"; dec_action := DELETE; dec_reason := AGED_OUT |};
      {| dec_digest := "B"; dec_action := KEEP; dec_reason := RETAINED_RECENT_MATCH |};
      {| dec_digest := "C"; dec_action := KEEP; dec_reason := RETAINED_RECENT_MATCH |} ].
Proof.
  cbv zeta. split_and!; try by vm_compute.
  apply list_elem_of_here.
Qed.

(** C1, amended: under main.go every tag of an image with a push time files
    the image under the first prefix of the list that the tag starts with,
    and under no other; the image is in the group of a prefix exactly when
    one of its tags is filed there.  It is retained (KEEP, logged as retained)
    if it is among the first two of the ranking of any group. *)
Theorem C1_groups_by_first_match `{!SliceSorter}
    (prefixes : list string) (images : list ImageDetail) (img : ImageDetail) (pushed : Time) :
  img ∈ images →
  ImagePushedAt img = Some pushed →
  (∀ prefix,
     MainGo.entry_of img pushed ∈ MainGo.group prefixes images prefix ↔
     ∃ tag, tag ∈ ImageTags img ∧ first_match prefixes tag = Some prefix) ∧
  (∀ prefix retention dryRun svc repoName now,
     MainGo.entry_of img pushed
       ∈ take keepCount (MainGo.ranked (MainGo.group prefixes images prefix)) →
     ImageDigest img ∈ MainGo.retainedDigests prefixes images ∧
     MainGo.process_image (MainGo.retainedDigests prefixes images)
       retention dryRun svc repoName now img
     = [MainGo.LogKeep (ImageDigest img) (ImageTags img)] ∧
     MainGo.decision_of
       (img, MainGo.process_image (MainGo.retainedDigests prefixes images)
               retention dryRun svc repoName now img)
     = Some {| dec_digest := ImageDigest img; dec_action := KEEP;
               dec_reason := RETAINED_RECENT_MATCH |}).
Proof.
  intros Himg Hp.
  assert (Hgroup : ∀ prefix,
     MainGo.entry_of img pushed ∈ MainGo.group prefixes images prefix ↔
     ∃ tag, tag ∈ ImageTags img ∧ first_match prefixes tag = Some prefix).
  { intros prefix. rewrite elem_of_group. split.
    - intros (img' & pushed' & tag & _ & _ & Htag & Hfirst & Heq).
      exists tag. split; [|done].
      apply (f_equal MainGo.tags) in Heq. simpl in Heq. by rewrite Heq.
    - intros (tag & Htag & Hfirst). by exists img, pushed, tag. }
  split; [done|].
  intros prefix retention dryRun svc repoName now Htop.
  assert (Hret : ImageDigest img ∈ MainGo.retainedDigests prefixes images).
  { apply elem_of_retainedDigests. by exists prefix, (MainGo.entry_of img pushed). }
  assert (Htags : ImageTags img ≠ []).
  { assert (Hin : MainGo.entry_of img pushed ∈ MainGo.group prefixes images prefix).
    { rewrite <- (group_ranked_Permutation (MainGo.group prefixes images prefix)).
      eapply elem_of_take in Htop as (i & Hi & _).
      by eapply list_elem_of_lookup_2. }
    apply Hgroup in Hin as (tag & Htag & _).
    intros Hnil. rewrite Hnil in Htag. by apply elem_of_nil in Htag. }
  split; [done|].
  rewrite (process_image_retained _ _ _ _ _ _ _ pushed) by done.
  split; [done|]. unfold MainGo.decision_of. simpl. by rewrite Hp.
Qed.

Lemma C1_groups_by_first_match_witness :
  let prefixes := ["latest"; "dev"] in
  let img := image "A" ["latest"; "dev-7"] (Some 3) in
  let images := [img; image "B" ["latest-2"] (Some 5)] in
  (∀ prefix,
     MainGo.entry_of img 3 ∈ MainGo.group prefixes images prefix ↔
     ∃ tag, tag ∈ ImageTags img ∧ first_match prefixes tag = Some prefix) ∧
  (∀ prefix retention dryRun svc repoName now,
     MainGo.entry_of img 3
       ∈ take keepCount (MainGo.ranked (MainGo.group prefixes images prefix)) →
     ImageDigest img ∈ MainGo.retainedDigests prefixes images ∧
     MainGo.process_image (MainGo.retainedDigests prefixes images)
       retention dryRun svc repoName now img
     = [MainGo.LogKeep (ImageDigest img) (ImageTags img)] ∧
     MainGo.decision_of
       (img, MainGo.process_image (MainGo.retainedDigests prefixes images)
               retention dryRun svc repoName now img)
     = Some {| dec_digest := ImageDigest img; dec_action := KEEP;
               dec_reason := RETAINED_RECENT_MATCH |}).
Proof.
  cbv zeta.
  apply (C1_groups_by_first_match (H := GoInsertionSort)
           ["latest"; "dev"] _ (image "A" ["latest"; "dev-7"] (Some 3)) 3).
  - apply list_elem_of_here.
  - reflexivity.
Defined.

(** *** C9: an image filed several times under one prefix *)

(** C9, as stated, fails.  With the prefixes [dev-] and [dev], both tags of
    the image start with [dev], yet the tag [dev-1] is filed under [dev-],
    the first prefix it starts with: the group of [dev] holds the image
    once, not once per matching tag. *)
Lemma C9_counterexample :
  let prefixes := ["dev-"; "dev"] in
  let A := image "A" ["dev"; "dev-1"] (Some 1) in
  length (filter (λ tag, HasPrefix tag "dev" = true) (ImageTags A)) = 2%nat ∧
  MainGo.group prefixes [A] "dev" = [MainGo.entry_of A 1] ∧
  MainGo.group prefixes [A] "dev-" = [MainGo.entry_of A 1].
Proof. cbv zeta. split_and!; by vm_compute. Qed.

(** C9, amended: under main.go the group of a prefix gets an image once for
    each of its tags whose first matching prefix, in list order, is that
    prefix.  The copies of one image can fill both of the group's two slots:
    there is a group with two distinct digests from which one digest only is
    retained. *)
Theorem C9_one_entry_per_filed_tag
    (prefixes : list string) (images : list ImageDetail) (prefix : string) :
  MainGo.group prefixes images prefix
  = images ≫= (λ img,
      match ImagePushedAt img with
      | None => []
      | Some pushed =>
          replicate
            (length (filter (λ tag, first_match prefixes tag = Some prefix) (ImageTags img)))
            (MainGo.entry_of img pushed)
      end) ∧
  (let X := image "X" ["dev-1"; "dev-2"] (Some 5) in
   let Y := image "Y" ["dev-3"] (Some 4) in
   MainGo.group ["dev"] [X; Y] "dev"
   = [MainGo.entry_of X 5; MainGo.entry_of X 5; MainGo.entry_of Y 4] ∧
   elements (@MainGo.retainedDigests GoInsertionSort ["dev"] [X; Y]) = ["X"]).
Proof.
  split; [|by vm_compute].
  rewrite group_entries. induction images as [|img images IH]; [done|].
  cbn [mbind list_bind]. f_equal; [|done].
  unfold entries_for. destruct (ImagePushedAt img) as [pushed|]; [|done].
  generalize (filter (λ tag, first_match prefixes tag = Some prefix) (ImageTags img)).
  intros filed. induction filed as [|tag filed IHf]; [done|].
  simpl. by rewrite <- IHf.
Qed.

(** *** C10: the empty prefix *)

(** C10: when the prefix list holds the empty string (the split of an
    empty prefix input is the list of the empty string alone), every tag
    starts with a prefix of the list, so every tagged image with a push time
    is among the matches that test.go ranks, and under main.go every one of
    its tags files it in the group of some prefix, where it is ranked. *)
Theorem C10_empty_prefix_matches_all `{!SliceSorter}
    (prefixes : list string) (images : list ImageDetail) (img : ImageDetail) (pushed : Time) :
  "" ∈ prefixes →
  img ∈ images →
  ImagePushedAt img = Some pushed →
  ImageTags img ≠ [] →
  Split "" comma = [""] ∧
  TestGo.matched prefixes img = true ∧
  img ∈ TestGo.taggedMatches (TestGo.scan prefixes images) ∧
  img ∈ TestGo.ranked prefixes images ∧
  (∀ tag, tag ∈ ImageTags img →
     ∃ prefix, prefix ∈ prefixes ∧ HasPrefix tag prefix = true ∧
       MainGo.entry_of img pushed ∈ MainGo.group prefixes images prefix ∧
       MainGo.entry_of img pushed ∈ MainGo.ranked (MainGo.group prefixes images prefix)).
Proof.
  intros Hempty Himg Hp Htags.
  assert (Hm : TestGo.matched prefixes img = true).
  { unfold TestGo.matched. destruct (ImageTags img) as [|tag tags']; [done|].
    apply existsb_exists. exists tag. split; [by left|].
    apply existsb_exists. exists "". split; [by apply list_elem_of_In|].
    apply HasPrefix_empty. }
  assert (Hin : img ∈ TestGo.taggedMatches (TestGo.scan prefixes images)).
  { rewrite taggedMatches_scan. apply list_elem_of_filter. split; [|done].
    split_and!; [by eexists|done|done]. }
  split_and!; try done.
  - unfold TestGo.ranked. by rewrite sort_Slice_Permutation.
  - intros tag Htag.
    destruct (first_match_is_Some prefixes tag "" Hempty (HasPrefix_empty tag))
      as [prefix Hfirst].
    destruct (first_match_elem_of _ _ _ Hfirst) as [Hprefix Hpre].
    assert (Hgroup : MainGo.entry_of img pushed ∈ MainGo.group prefixes images prefix).
    { apply elem_of_group. by exists img, pushed, tag. }
    exists prefix. split_and!; try done.
    by rewrite group_ranked_Permutation.
Qed.

Lemma C10_empty_prefix_matches_all_witness :
  let prefixes := Split "" comma in
  let img := image "A" ["v1"] (Some 7) in
  let images := [img; image "B" [] (Some 8)] in
  Split "" comma = [""] ∧
  TestGo.matched prefixes img = true ∧
  img ∈ TestGo.taggedMatches (TestGo.scan prefixes images) ∧
  img ∈ TestGo.ranked prefixes images ∧
  (∀ tag, tag ∈ ImageTags img →
     ∃ prefix, prefix ∈ prefixes ∧ HasPrefix tag prefix = true ∧
       MainGo.entry_of img 7 ∈ MainGo.group prefixes images prefix ∧
       MainGo.entry_of img 7 ∈ MainGo.ranked (MainGo.group prefixes images prefix)).
Proof.
  cbv zeta.
  apply (C10_empty_prefix_matches_all (H := GoInsertionSort)
           (Split "" comma) _ (image "A" ["v1"] (Some 7)) 7).
  - vm_compute. apply list_elem_of_here.
  - apply list_elem_of_here.
  - reflexivity.
  - simpl. discriminate.
Defined.

(** *** C2: one decision per image *)

Lemma NoDup_fmap_eq {A} (f : A → string) (l : list A) (x y : A) :
  NoDup (f <$> l) → x ∈ l → y ∈ l → f x = f y → x = y.
Proof.
  induction l as [|z l IH]; [by intros _ ?%elem_of_nil|].
  rewrite fmap_cons, NoDup_cons.
  intros [Hz Hnd] [->|Hx]%elem_of_cons [->|Hy]%elem_of_cons Heq; try done.
  - destruct Hz. rewrite Heq. by apply list_elem_of_fmap_2.
  - destruct Hz. rewrite <- Heq. by apply list_elem_of_fmap_2.
  - by apply IH.
Qed.

(** C2, as stated, fails under test.go: a tagged image with a push time
    whose tag starts with none of the prefixes is put neither in
    [taggedMatches] nor in [untagged]; it is not retained and not deleted,
    and no decision names it. *)
Lemma C2_counterexample :
  let A := image "A" ["foo"] (Some 1) in
  is_Some (ImagePushedAt A) ∧
  @TestGo.decisions GoInsertionSort ["latest"] [A] = [] ∧
  @TestGo.process_repository GoInsertionSort ["latest"] false deletes "repo" [A] = [] ∧
  occurrences "A" (@TestGo.decisions GoInsertionSort ["latest"] [A]) = 0%nat.
Proof. cbv zeta. split_and!; try by vm_compute. by eexists. Qed.

(** C2, amended: for images with distinct digests, main.go takes exactly one
    decision for every image with a push time; test.go takes exactly one
    decision for every image with a push time that is untagged or has a tag
    starting with a retained prefix, and none for a tagged image with a push
    time that matches no retained prefix. *)
Theorem C2_one_decision_per_examined_image `{!SliceSorter}
    (prefixes : list string) (images : list ImageDetail) (img : ImageDetail) :
  NoDup (ImageDigest <$> images) →
  img ∈ images →
  is_Some (ImagePushedAt img) →
  (∀ retention dryRun svc repoName clock tick,
     occurrences (ImageDigest img)
       (MainGo.decisions prefixes retention dryRun svc repoName clock tick images) = 1%nat) ∧
  (ImageTags img = [] ∨ TestGo.matched prefixes img = true →
     occurrences (ImageDigest img) (TestGo.decisions prefixes images) = 1%nat) ∧
  (ImageTags img ≠ [] → TestGo.matched prefixes img = false →
     occurrences (ImageDigest img) (TestGo.decisions prefixes images) = 0%nat).
Proof.
  intros Hnd Himg Hpushed. split_and!.
  - intros retention dryRun svc repoName clock tick.
    unfold MainGo.decisions, MainGo.turns.
    apply occurrences_once; rewrite decisions_of_iterations.
    + by apply NoDup_fmap_filter.
    + apply list_elem_of_fmap_2. by apply list_elem_of_filter.
  - intros Hcase. apply occurrences_once; [by apply decisions_NoDup|].
    rewrite decisions_digests by done.
    apply list_elem_of_fmap_2, list_elem_of_filter. split; [|done].
    destruct (decide (ImageTags img = [])) as [Hnil|Hne].
    + right. by split.
    + left. split_and!; try done. by destruct Hcase.
  - intros Htags Hm. apply occurrences_none.
    rewrite decisions_digests by done.
    intros (img' & Heq & [Hcase Himg']%list_elem_of_filter)%list_elem_of_fmap.
    assert (img = img') as <- by by eapply (NoDup_fmap_eq ImageDigest).
    destruct Hcase as [(_ & _ & Hm')|[_ Hnil]]; congruence.
Qed.

Lemma C2_one_decision_per_examined_image_witness :
  let prefixes := ["latest"] in
  let img := image "A" ["latest"] (Some 1) in
  let images := [img; image "B" ["foo"] (Some 2); image "C" [] (Some 3)] in
  (∀ retention dryRun svc repoName clock tick,
     occurrences (ImageDigest img)
       (MainGo.decisions prefixes retention dryRun svc repoName clock tick images) = 1%nat) ∧
  (ImageTags img = [] ∨ TestGo.matched prefixes img = true →
     occurrences (ImageDigest img) (TestGo.decisions prefixes images) = 1%nat) ∧
  (ImageTags img ≠ [] → TestGo.matched prefixes img = false →
     occurrences (ImageDigest img) (TestGo.decisions prefixes images) = 0%nat).
Proof.
  cbv zeta.
  apply (C2_one_decision_per_examined_image (H := GoInsertionSort)).
  - apply (bool_decide_unpack _). vm_compute. reflexivity.
  - apply list_elem_of_here.
  - simpl. eexists. reflexivity.
Defined.

(** *** C6: untagged images *)

(** C6: an image without tags and with a push time is marked for deletion
    as untagged by both programs, whatever the prefixes, the retention
    period and its age: test.go puts it in [toDelete], main.go logs it as
    an untagged candidate in its turn. *)
Theorem C6_untagged_is_delete `{!SliceSorter}
    (prefixes : list string) (images : list ImageDetail) (img : ImageDetail) (pushed : Time) :
  img ∈ images →
  ImagePushedAt img = Some pushed →
  ImageTags img = [] →
  let verdict := {| dec_digest := ImageDigest img; dec_action := DELETE;
                    dec_reason := UNTAGGED |} in
  (img ∈ TestGo.toDelete prefixes images ∧
   verdict ∈ TestGo.decisions prefixes images ∧
   ∀ (dryRun : bool) (svc : Registry) (repoName : string),
     ((if dryRun then TestGo.LogDryRun (ImageDigest img)
       else TestGo.BatchDeleteImage repoName (ImageDigest img)) : TestGo.event)
       ∈ TestGo.process_repository prefixes dryRun svc repoName images) ∧
  (∀ retention dryRun svc repoName clock tick,
     (img, [MainGo.LogUntaggedCandidate (ImageDigest img)])
       ∈ MainGo.turns prefixes retention dryRun svc repoName clock tick images ∧
     verdict ∈ MainGo.decisions prefixes retention dryRun svc repoName clock tick images).
Proof.
  intros Himg Hp Htags verdict.
  assert (Hdel : img ∈ TestGo.toDelete prefixes images).
  { unfold TestGo.toDelete. apply elem_of_app. right.
    rewrite untagged_scan. apply list_elem_of_filter. split; [|done].
    split; [by eexists|done]. }
  split.
  - split_and!; [done| |].
    + unfold TestGo.decisions. apply elem_of_app. right.
      apply list_elem_of_fmap. exists img. split; [|done].
      unfold verdict. by rewrite Htags.
    + intros dryRun svc repoName. unfold TestGo.process_repository.
      apply elem_of_app. right. apply list_elem_of_In, in_flat_map.
      exists img. split; [by apply list_elem_of_In|].
      unfold TestGo.delete_image. destruct dryRun; simpl; by left.
  - intros retention dryRun svc repoName clock tick.
    unfold MainGo.decisions, MainGo.turns.
    destruct (iterations_elem_of (MainGo.retainedDigests prefixes images)
                retention dryRun svc repoName clock tick images img Himg) as [n Hn].
    rewrite (process_image_untagged _ _ _ _ _ _ _ pushed) in Hn by done.
    split; [done|].
    apply list_elem_of_omap. eexists. split; [exact Hn|].
    unfold MainGo.decision_of. simpl. by rewrite Hp.
Qed.

Lemma C6_untagged_is_delete_witness :
  let prefixes := [""] in
  let img := image "U" [] (Some 9) in
  let images := [image "A" ["latest"] (Some 1); img] in
  let verdict := {| dec_digest := "U"; dec_action := DELETE; dec_reason := UNTAGGED |} in
  (img ∈ TestGo.toDelete prefixes images ∧
   verdict ∈ TestGo.decisions prefixes images ∧
   ∀ (dryRun : bool) (svc : Registry) (repoName : string),
     ((if dryRun then TestGo.LogDryRun "U"
       else TestGo.BatchDeleteImage repoName "U") : TestGo.event)
       ∈ TestGo.process_repository prefixes dryRun svc repoName images) ∧
  (∀ retention dryRun svc repoName clock tick,
     (img, [MainGo.LogUntaggedCandidate "U"])
       ∈ MainGo.turns prefixes retention dryRun svc repoName clock tick images ∧
     verdict ∈ MainGo.decisions prefixes retention dryRun svc repoName clock tick images).
Proof.
  cbv zeta.
  apply (C6_untagged_is_delete (H := GoInsertionSort) [""] _ (image "U" [] (Some 9)) 9).
  - apply list_elem_of_further, list_elem_of_here.
  - reflexivity.
  - reflexivity.
Defined.

(** *** C3: images pushed at the same time *)

(** C3, as stated, fails.  The comparison handed to [sort.Slice] looks at the
    push time only.  Here [b] and [a] are pushed at the same time and [c]
    later; the sort of this three-element slice moves [c] to the front and
    leaves [b] before [a], so the second slot goes to [b], although [a] is
    the smaller digest: test.go deletes [a], main.go does not retain it. *)
Lemma C3_counterexample :
  let images := [image "b" ["latest"] (Some 1); image "a" ["latest"] (Some 1);
                 image "c" ["latest"] (Some 2)] in
  String.compare "a" "b" = Lt ∧
  ImageDigest <$> @TestGo.ranked GoInsertionSort ["latest"] images = ["c"; "b"; "a"] ∧
  @TestGo.decisions GoInsertionSort ["latest"] images
  = [ {| dec_digest := "c"; dec_action := KEEP; dec_reason := RETAINED_RECENT_MATCH |};
      {| dec_digest := "b"; dec_action := KEEP; dec_reason := RETAINED_RECENT_MATCH |};
      {| dec_digest := "a"; dec_action := DELETE; dec_reason := AGED_OUT |} ] ∧
  MainGo.digest <$> @MainGo.ranked GoInsertionSort (MainGo.group ["latest"] images "latest")
  = ["c"; "b"; "a"] ∧
  "b" ∈ @MainGo.retainedDigests GoInsertionSort ["latest"] images ∧
  ("a" ∉ @MainGo.retainedDigests GoInsertionSort ["latest"] images).
Proof. cbv zeta. split_and!; by vm_compute. Qed.

(** C3, amended: in both programs the matched images are ranked by push
    time alone, latest first, and the digest plays no part.  Whatever
    [sort.Slice] does with equal push times, the ranking is a rearrangement
    in which no image comes before one pushed later; on slices of at most 12
    elements, where [sort.Slice] runs the insertion sort, images with the
    same push time stay in the order of the input, so of two such images
    the one listed first gets the remaining slot. *)
Theorem C3_ranked_by_push_time_only `{!SliceSorter}
    (prefixes : list string) (images : list ImageDetail) :
  (TestGo.ranked prefixes images ≡ₚ TestGo.taggedMatches (TestGo.scan prefixes images) ∧
   StronglySorted (λ a b, TestGo.pushedAt b ≤ TestGo.pushedAt a)
     (TestGo.ranked prefixes images)) ∧
  (∀ prefix,
     MainGo.ranked (MainGo.group prefixes images prefix)
       ≡ₚ MainGo.group prefixes images prefix ∧
     StronglySorted (λ a b, MainGo.pushedTime b ≤ MainGo.pushedTime a)
       (MainGo.ranked (MainGo.group prefixes images prefix))) ∧
  ((length (TestGo.taggedMatches (TestGo.scan prefixes images)) ≤ maxInsertion)%nat →
   ∀ t,
     filter (λ img, TestGo.pushedAt img = t) (@TestGo.ranked GoInsertionSort prefixes images)
     = filter (λ img, TestGo.pushedAt img = t)
         (TestGo.taggedMatches (TestGo.scan prefixes images))) ∧
  (∀ prefix,
     (length (MainGo.group prefixes images prefix) ≤ maxInsertion)%nat →
     ∀ t,
       filter (λ entry, MainGo.pushedTime entry = t)
         (@MainGo.ranked GoInsertionSort (MainGo.group prefixes images prefix))
       = filter (λ entry, MainGo.pushedTime entry = t) (MainGo.group prefixes images prefix)).
Proof.
  split_and!.
  - apply sort_Slice_Permutation.
  - apply matches_ranked_sorted.
  - intros prefix. split; [apply group_ranked_Permutation|apply group_ranked_sorted].
  - intros _ t. apply (insertionSort_stable TestGo.pushedAt).
  - intros prefix _ t. apply (insertionSort_stable MainGo.pushedTime).
Qed.

Lemma C3_ranked_by_push_time_only_witness :
  let images := [image "b" ["latest"] (Some 1); image "a" ["latest"] (Some 1);
                 image "c" ["latest"] (Some 2)] in
  filter (λ img, TestGo.pushedAt img = 1) (@TestGo.ranked GoInsertionSort ["latest"] images)
  = filter (λ img, TestGo.pushedAt img = 1)
      (TestGo.taggedMatches (TestGo.scan ["latest"] images)) ∧
  filter (λ entry, MainGo.pushedTime entry = 1)
    (@MainGo.ranked GoInsertionSort (MainGo.group ["latest"] images "latest"))
  = filter (λ entry, MainGo.pushedTime entry = 1) (MainGo.group ["latest"] images "latest").
Proof.
  cbv zeta. split.
  - apply (proj1 (proj2 (proj2 (C3_ranked_by_push_time_only (H := GoInsertionSort)
             ["latest"] [image "b" ["latest"] (Some 1); image "a" ["latest"] (Some 1);
                         image "c" ["latest"] (Some 2)])))).
    vm_compute. lia.
  - apply (proj2 (proj2 (proj2 (C3_ranked_by_push_time_only (H := GoInsertionSort)
             ["latest"] [image "b" ["latest"] (Some 1); image "a" ["latest"] (Some 1);
                         image "c" ["latest"] (Some 2)]))) "latest").
    vm_compute. lia.
Defined.

(** *** C4: the clock *)

(** C4, as stated, fails for main.go: the age of an image is taken from
    [time.Since], which reads the clock of the machine.  The same image list
    and the same configuration give KEEP when the clock stands 5 days after
    the push and DELETE when it stands 20 days after it. *)
Lemma C4_counterexample :
  let images := [image "A" ["foo"] (Some 0)] in
  @MainGo.decisions GoInsertionSort ["latest"] 10 false deletes "repo"
    (λ _, 5 * Day) 0%nat images
  = [ {| dec_digest := "A"; dec_action := KEEP; dec_reason := RETAINED_WITHIN_AGE |} ] ∧
  @MainGo.decisions GoInsertionSort ["latest"] 10 false deletes "repo"
    (λ _, 20 * Day) 0%nat images
  = [ {| dec_digest := "A"; dec_action := DELETE; dec_reason := AGED_OUT |} ] ∧
  @MainGo.process_repository GoInsertionSort ["latest"] 10 false deletes "repo"
    (λ _, 5 * Day) 0%nat images
  ≠ @MainGo.process_repository GoInsertionSort ["latest"] 10 false deletes "repo"
    (λ _, 20 * Day) 0%nat images.
Proof. cbv zeta. split_and!; by vm_compute. Qed.

Lemma delete_lines_registry (dryRun : bool) (svc svc' : Registry) (repoName : string)
    (doomed : list ImageDetail) :
  (∀ img, img ∈ doomed →
     svc' repoName (ImageDigest img) = svc repoName (ImageDigest img)) →
  flat_map (TestGo.delete_image dryRun svc' repoName) doomed
  = flat_map (TestGo.delete_image dryRun svc repoName) doomed.
Proof.
  induction doomed as [|img doomed IH]; intros Hsvc; [done|].
  cbn [flat_map]. rewrite IH by (intros img' Hin; apply Hsvc; by right).
  unfold TestGo.delete_image. by rewrite (Hsvc img) by by left.
Qed.

(** C4, amended: test.go reads no clock; its decisions for a repository are
    a function of the image list and the prefixes, and its events depend in
    addition only on the dry-run flag and on the registry's answers to the
    delete calls it makes: two runs that agree on them agree on every
    decision and event.  main.go takes no [now] either but reads the ambient
    clock once for every image with a push time; its events and decisions
    are a function of the image list, the prefixes, the retention period, the
    dry-run flag, the registry's answers and those clock readings: two runs
    that agree on them agree on every event and decision.  The order in
    which the map hands out the groups does not change the retained
    digests. *)
Theorem C4_determined_by_inputs_and_clock_readings `{!SliceSorter}
    (prefixes : list string) (retention : Z) (dryRun : bool) (svc : Registry)
    (repoName : string) (clock clock' : MainGo.Clock) (tick : nat)
    (images : list ImageDetail) :
  (∀ prefixes' images',
     prefixes' = prefixes → images' = images →
     TestGo.decisions prefixes' images' = TestGo.decisions prefixes images) ∧
  (∀ svc' : Registry,
     (∀ img, img ∈ TestGo.toDelete prefixes images →
        svc' repoName (ImageDigest img) = svc repoName (ImageDigest img)) →
     TestGo.process_repository prefixes dryRun svc' repoName images
     = TestGo.process_repository prefixes dryRun svc repoName images) ∧
  ((∀ n, (tick ≤ n < tick + MainGo.readings images)%nat → clock n = clock' n) →
   MainGo.process_repository prefixes retention dryRun svc repoName clock tick images
   = MainGo.process_repository prefixes retention dryRun svc repoName clock' tick images ∧
   MainGo.decisions prefixes retention dryRun svc repoName clock tick images
   = MainGo.decisions prefixes retention dryRun svc repoName clock' tick images) ∧
  (∀ groups, groups ≡ₚ map_to_list (MainGo.prefixMatchMap prefixes images) →
     MainGo.retain_groups groups = MainGo.retainedDigests prefixes images).
Proof.
  split_and!.
  - by intros prefixes' images' -> ->.
  - intros svc' Hsvc. unfold TestGo.process_repository. f_equal.
    by apply delete_lines_registry.
  - intros Hclock.
    unfold MainGo.process_repository, MainGo.decisions, MainGo.turns.
    by rewrite (iterations_clock _ _ _ _ _ clock clock').
  - intros groups Hperm. by apply retain_groups_Permutation.
Qed.

Lemma C4_determined_by_inputs_and_clock_readings_witness :
  let images := [image "A" ["foo"] (Some 0); image "B" [] None] in
  let clock := λ n : nat, match n with O => 5 * Day | _ => 6 * Day end in
  let clock' := λ n : nat, match n with O => 5 * Day | _ => 9 * Day end in
  MainGo.process_repository ["latest"] 10 false deletes "repo" clock 0 images
  = MainGo.process_repository ["latest"] 10 false deletes "repo" clock' 0 images ∧
  MainGo.decisions ["latest"] 10 false deletes "repo" clock 0 images
  = MainGo.decisions ["latest"] 10 false deletes "repo" clock' 0 images.
Proof.
  cbv zeta.
  apply (proj1 (proj2 (proj2
           (C4_determined_by_inputs_and_clock_readings (H := GoInsertionSort)
              ["latest"] 10 false deletes "repo"
              (λ n : nat, match n with O => 5 * Day | _ => 6 * Day end)
              (λ n : nat, match n with O => 5 * Day | _ => 9 * Day end) 0%nat
              [image "A" ["foo"] (Some 0); image "B" [] None])))).
  intros n Hn. vm_compute in Hn. destruct n as [|n]; [reflexivity|lia].
Defined.

(** *** C5: the configuration is not checked *)

(** C5, as stated, fails: neither program checks its configuration and
    neither has a configuration error.  main.go run with the retention
    period -1 examines the image and deletes it; run with an empty prefix
    input it works with the single empty prefix and retains the image;
    test.go run with an empty prefix input retains and deletes. *)
Lemma C5_counterexample :
  let A := image "A" ["foo"] (Some 0) in
  @MainGo.main GoInsertionSort (-1) "latest" false deletes (λ _, 0) [("repo", Some [A])]
  = [MainGo.LogOldImage "A" 0 ["foo"]; MainGo.BatchDeleteImage "repo" "A";
     MainGo.LogDeleted "A"] ∧
  @MainGo.main GoInsertionSort 10 "" false deletes (λ _, 0) [("repo", Some [A])]
  = [MainGo.LogKeep "A" ["foo"]] ∧
  @TestGo.main GoInsertionSort "" false deletes [("repo", Some [A; image "U" [] (Some 0)])]
  = [TestGo.LogRetaining "A"; TestGo.BatchDeleteImage "repo" "U"; TestGo.LogDeleted "U"].
Proof. cbv zeta. split_and!; by vm_compute. Qed.

Section whole_runs.
Context `{!SliceSorter}.

(** The events of a listed repository with images are events of the run. *)
Lemma test_go_repository_in_main (prefixList : string) (dryRun : bool) (svc : Registry)
    (repos : list (string * option (list ImageDetail))) (repoName : string)
    (images : list ImageDetail) (ev : TestGo.event) :
  (repoName, Some images) ∈ repos →
  images ≠ [] →
  ev ∈ TestGo.process_repository (Split prefixList comma) dryRun svc repoName images →
  ev ∈ TestGo.main prefixList dryRun svc repos.
Proof.
  intros Hrepo Hne Hev. unfold TestGo.main. apply list_elem_of_In, in_flat_map.
  exists (repoName, Some images). split; [by apply list_elem_of_In|].
  apply list_elem_of_In. simpl. by destruct images.
Qed.

Lemma main_go_repository_in_main (prefixes : list string) (retention : Z) (dryRun : bool)
    (svc : Registry) (clock : MainGo.Clock) (tick : nat)
    (repos : list (string * option (list ImageDetail))) (repoName : string)
    (images : list ImageDetail) :
  (repoName, Some images) ∈ repos →
  images ≠ [] →
  ∃ tick', ∀ ev,
    ev ∈ MainGo.process_repository prefixes retention dryRun svc repoName clock tick' images →
    ev ∈ MainGo.repositories prefixes retention dryRun svc clock tick repos.
Proof.
  intros Hrepo Hne. revert tick.
  induction repos as [|[name described] repos IH]; intros tick.
  { by apply elem_of_nil in Hrepo. }
  apply elem_of_cons in Hrepo as [[= <- <-]|Hrepo].
  - exists tick. intros ev Hev. cbn [MainGo.repositories]. simpl.
    destruct images; [done|]. apply elem_of_app. by left.
  - cbn [MainGo.repositories]. simpl.
    destruct described as [[|img0 images0]|]; try by apply IH.
    destruct (IH Hrepo (tick + MainGo.readings (img0 :: images0))%nat) as [tick' Hin].
    exists tick'. intros ev Hev. apply elem_of_app. right. by apply Hin.
Qed.

Lemma main_go_turn_in_main (retention : Z) (prefixList : string) (dryRun : bool)
    (svc : Registry) (clock : MainGo.Clock)
    (repos : list (string * option (list ImageDetail))) (repoName : string)
    (images : list ImageDetail) (img : ImageDetail) :
  (repoName, Some images) ∈ repos →
  img ∈ images →
  ∃ n, ∀ ev,
    ev ∈ MainGo.process_image (MainGo.retainedDigests (Split prefixList comma) images)
           retention dryRun svc repoName (clock n) img →
    ev ∈ MainGo.main retention prefixList dryRun svc clock repos.
Proof.
  intros Hrepo Himg.
  assert (Hne : images ≠ []) by (intros ->; by apply elem_of_nil in Himg).
  destruct (main_go_repository_in_main (Split prefixList comma) retention dryRun svc
              clock 0 repos repoName images Hrepo Hne) as [tick' Hin].
  destruct (iterations_elem_of
              (MainGo.retainedDigests (Split prefixList comma) images)
              retention dryRun svc repoName clock tick' images img Himg) as [n Hturn].
  exists n. intros ev Hev. apply Hin. unfold MainGo.process_repository, MainGo.turns.
  apply list_elem_of_In, in_flat_map. eexists. split; [by apply list_elem_of_In|].
  by apply list_elem_of_In.
Qed.

End whole_runs.

(** C5, amended: neither program validates its configuration, and no
    configuration error exists: the retention period is any integer, also a
    negative one, the prefix input any string, also the empty one, and the
    number of images kept is a fixed 2 that is not part of the
    configuration.  The split of the prefix input is never the empty list,
    and the split of the empty input is the single empty prefix.  Whatever
    the configuration, the run goes through every listed repository and
    produces results: an untagged image with a push time is logged as a
    delete candidate by main.go and is deleted, or in dry-run announced, by
    test.go, and main.go takes a decision for every image with a push time.
    With a negative retention period main.go logs as old, and outside
    dry-run deletes, every tagged image that is not retained and is not
    pushed after the clock readings. *)
Theorem C5_no_validation `{!SliceSorter}
    (retention : Z) (prefixList : string) (dryRun : bool) (svc : Registry)
    (clock : MainGo.Clock) (repos : list (string * option (list ImageDetail)))
    (repoName : string) (images : list ImageDetail) (img : ImageDetail) (pushed : Time) :
  (repoName, Some images) ∈ repos →
  img ∈ images →
  ImagePushedAt img = Some pushed →
  Split prefixList comma ≠ [] ∧
  Split "" comma = [""] ∧
  (ImageTags img = [] →
   MainGo.LogUntaggedCandidate (ImageDigest img)
     ∈ MainGo.main retention prefixList dryRun svc clock repos ∧
   ((if dryRun then TestGo.LogDryRun (ImageDigest img)
     else TestGo.BatchDeleteImage repoName (ImageDigest img)) : TestGo.event)
     ∈ TestGo.main prefixList dryRun svc repos) ∧
  (∀ tick,
     length (MainGo.decisions (Split prefixList comma) retention dryRun svc repoName
               clock tick images)
     = MainGo.readings images) ∧
  (retention < 0 →
   ImageTags img ≠ [] →
   ImageDigest img ∉ MainGo.retainedDigests (Split prefixList comma) images →
   (∀ n, pushed ≤ clock n) →
   (∃ age, MainGo.LogOldImage (ImageDigest img) age (ImageTags img)
             ∈ MainGo.main retention prefixList dryRun svc clock repos) ∧
   (dryRun = false →
    MainGo.BatchDeleteImage repoName (ImageDigest img)
      ∈ MainGo.main retention prefixList dryRun svc clock repos)).
Proof.
  intros Hrepo Himg Hp.
  destruct (main_go_turn_in_main retention prefixList dryRun svc clock repos repoName
              images img Hrepo Himg) as [n Hturn].
  split_and!; try done.
  - apply Split_nonempty.
  - intros Htags. split.
    + apply Hturn. rewrite (process_image_untagged _ _ _ _ _ _ _ pushed) by done.
      by left.
    + apply (test_go_repository_in_main _ _ _ _ repoName images); [done| |].
      { intros ->. by apply elem_of_nil in Himg. }
      unfold TestGo.process_repository. apply elem_of_app. right.
      apply list_elem_of_In, in_flat_map. exists img. split.
      * apply list_elem_of_In. unfold TestGo.toDelete. apply elem_of_app. right.
        rewrite untagged_scan. apply list_elem_of_filter. split; [|done].
        split; [by eexists|done].
      * unfold TestGo.delete_image. destruct dryRun; simpl; by left.
  - intros tick. unfold MainGo.decisions, MainGo.turns, MainGo.readings.
    rewrite <- (length_fmap dec_digest), decisions_of_iterations.
    by rewrite length_fmap.
  - intros Hneg Htags Hret Hclock.
    assert (Hage : retention < ageDays (Since (clock n) pushed)).
    { pose proof (AgeFacts.ageDays_nonneg _ (AgeFacts.Since_nonneg _ _ (Hclock n))). lia. }
    pose proof (process_image_old (MainGo.retainedDigests (Split prefixList comma) images)
                  retention dryRun svc repoName (clock n) img pushed Hp Htags Hret Hage)
      as Hevs.
    split.
    + eexists. apply Hturn. rewrite Hevs. by left.
    + intros ->. apply Hturn. rewrite Hevs. simpl. right. by left.
Qed.

Lemma C5_no_validation_witness :
  let A := image "A" ["foo"] (Some 0) in
  let repos := [("repo", Some [image "U" [] (Some 0); A])] in
  (∃ age, MainGo.LogOldImage "A" age ["foo"]
            ∈ MainGo.main (-1) "latest" false deletes (λ _, 5) repos) ∧
  (false = false →
   MainGo.BatchDeleteImage "repo" "A"
     ∈ MainGo.main (-1) "latest" false deletes (λ _, 5) repos).
Proof.
  cbv zeta.
  apply (proj2 (proj2 (proj2 (proj2
           (C5_no_validation (H := GoInsertionSort) (-1) "latest" false deletes (λ _, 5)
              [("repo", Some [image "U" [] (Some 0); image "A" ["foo"] (Some 0)])]
              "repo" [image "U" [] (Some 0); image "A" ["foo"] (Some 0)]
              (image "A" ["foo"] (Some 0)) 0
              ltac:(apply list_elem_of_here)
              ltac:(apply list_elem_of_further, list_elem_of_here)
              ltac:(reflexivity)))))).
  - lia.
  - simpl. discriminate.
  - apply (bool_decide_unpack _). vm_compute. exact I.
  - intros n. lia.
Defined.

(** *** C7: the age threshold *)

(** C7, as stated, fails.  The age is [int(time.Since(pushed).Hours() / 24)],
    computed in float64.  An image pushed one nanosecond less than 1000 days
    before the clock reading has floored age 999; its hour count
    23999.99999999999972 rounds to the float64 24000, so the program computes
    the age 1000 and, with the retention period 999, deletes it. *)
Lemma C7_counterexample :
  let A := image "A" ["foo"] (Some 0) in
  let now := 1000 * Day - 1 in
  (now - 0) `div` Day = 999 ∧
  ageDays (Since now 0) = 1000 ∧
  MainGo.process_image ∅ 999 false deletes "repo" now A
  = [MainGo.LogOldImage "A" 1000 ["foo"]; MainGo.BatchDeleteImage "repo" "A";
     MainGo.LogDeleted "A"] ∧
  @MainGo.decisions GoInsertionSort ["latest"] 999 false deletes "repo" (λ _, now) 0%nat [A]
  = [ {| dec_digest := "A"; dec_action := DELETE; dec_reason := AGED_OUT |} ].
Proof. cbv zeta. split_and!; by vm_compute. Qed.

(** C7, amended: under main.go the age of a tagged, non-retained image with
    a push time is [int(time.Since(pushed).Hours() / 24)]: the elapsed hours
    as a float64, divided by 24, the fraction dropped.  The image is logged as
    old (DELETE, AGED_OUT) if and only if that age is strictly greater than
    the retention period; otherwise its turn emits nothing and it stays (KEEP,
    RETAINED_WITHIN_AGE), in particular when the age equals the period. *)
Theorem C7_delete_iff_age_exceeds_retention
    (retained : gset string) (retention : Z) (dryRun : bool) (svc : Registry)
    (repoName : string) (now : Time) (img : ImageDetail) (pushed : Time) :
  ImagePushedAt img = Some pushed →
  ImageTags img ≠ [] →
  ImageDigest img ∉ retained →
  let age := ageDays (Since now pushed) in
  let turn := (img, MainGo.process_image retained retention dryRun svc repoName now img) in
  (MainGo.decision_of turn
   = Some {| dec_digest := ImageDigest img; dec_action := DELETE; dec_reason := AGED_OUT |}
   ↔ retention < age) ∧
  (MainGo.decision_of turn
   = Some {| dec_digest := ImageDigest img; dec_action := KEEP;
             dec_reason := RETAINED_WITHIN_AGE |}
   ↔ age ≤ retention) ∧
  (age = retention →
   turn.2 = [] ∧
   MainGo.decision_of turn
   = Some {| dec_digest := ImageDigest img; dec_action := KEEP;
             dec_reason := RETAINED_WITHIN_AGE |}).
Proof.
  intros Hp Htags Hret age turn.
  assert (Hold : retention < age → MainGo.decision_of turn
    = Some {| dec_digest := ImageDigest img; dec_action := DELETE; dec_reason := AGED_OUT |}).
  { intros Hage. unfold turn, MainGo.decision_of.
    rewrite (process_image_old _ _ _ _ _ _ _ pushed) by done. simpl. by rewrite Hp. }
  assert (Hyoung : age ≤ retention → turn.2 = [] ∧ MainGo.decision_of turn
    = Some {| dec_digest := ImageDigest img; dec_action := KEEP;
              dec_reason := RETAINED_WITHIN_AGE |}).
  { intros Hage. unfold turn, MainGo.decision_of.
    rewrite (process_image_within_age _ _ _ _ _ _ _ pushed) by done.
    simpl. by rewrite Hp. }
  split_and!.
  - split; [|done]. intros Hdec.
    destruct (Z.lt_ge_cases retention age) as [?|Hle]; [done|].
    destruct (Hyoung Hle) as [_ Hkeep]. congruence.
  - split; [|by intros Hle; apply Hyoung]. intros Hdec.
    destruct (Z.lt_ge_cases retention age) as [Hlt|?]; [|done].
    specialize (Hold Hlt). congruence.
  - intros Heq. apply Hyoung. lia.
Qed.

Lemma C7_delete_iff_age_exceeds_retention_witness :
  let img := image "A" ["foo"] (Some 0) in
  let age := ageDays (Since (10 * Day) 0) in
  let turn := (img, MainGo.process_image ∅ 10 false deletes "repo" (10 * Day) img) in
  (MainGo.decision_of turn
   = Some {| dec_digest := "A"; dec_action := DELETE; dec_reason := AGED_OUT |}
   ↔ 10 < age) ∧
  (MainGo.decision_of turn
   = Some {| dec_digest := "A"; dec_action := KEEP; dec_reason := RETAINED_WITHIN_AGE |}
   ↔ age ≤ 10) ∧
  (age = 10 →
   turn.2 = [] ∧
   MainGo.decision_of turn
   = Some {| dec_digest := "A"; dec_action := KEEP; dec_reason := RETAINED_WITHIN_AGE |}).
Proof.
  cbv zeta.
  apply (C7_delete_iff_age_exceeds_retention ∅ 10 false deletes "repo" (10 * Day)
           (image "A" ["foo"] (Some 0)) 0).
  - reflexivity.
  - simpl. discriminate.
  - apply not_elem_of_empty.
Defined.

(** *** C8: where main.go calls the registry *)

Lemma BatchDeleteImage_in_turn (retained : gset string) (retention : Z) (dryRun : bool)
    (svc : Registry) (repoName : string) (now : Time) (img : ImageDetail)
    (repo d : string) :
  MainGo.BatchDeleteImage repo d
    ∈ MainGo.process_image retained retention dryRun svc repoName now img →
  dryRun = false ∧ repo = repoName ∧ d = ImageDigest img ∧
  ∃ pushed, ImagePushedAt img = Some pushed ∧ ImageTags img ≠ [] ∧
            (ImageDigest img ∉ retained) ∧ retention < ageDays (Since now pushed).
Proof.
  unfold MainGo.process_image.
  destruct (ImagePushedAt img) as [pushed|]; [|by intros ?%elem_of_nil].
  destruct (ImageTags img) as [|tag tags'] eqn:Htags.
  { intros [=]%list_elem_of_singleton. }
  case_decide as Hret.
  { intros [=]%list_elem_of_singleton. }
  destruct (Z.ltb_spec retention (ageDays (Since now pushed))) as [Hage|_];
    [|by intros ?%elem_of_nil].
  intros [[=]|Hin]%elem_of_cons.
  destruct dryRun; simpl in Hin; [by apply elem_of_nil in Hin|].
  apply elem_of_cons in Hin as [[= -> ->]|Hin].
  - split_and!; try done. by exists pushed.
  - apply list_elem_of_singleton in Hin. by destruct (svc _ _).
Qed.

(** The turn of the image at index [i] takes the clock reading number
    [tick + readings (take i images)]: one reading was taken for every
    earlier image with a push time. *)
Lemma iterations_lookup (retained : gset string) (retention : Z) (dryRun : bool)
    (svc : Registry) (repoName : string) (clock : MainGo.Clock) (tick : nat)
    (images : list ImageDetail) (i : nat) (img : ImageDetail) :
  images !! i = Some img →
  MainGo.iterations retained retention dryRun svc repoName clock tick images !! i
  = Some (img, MainGo.process_image retained retention dryRun svc repoName
                 (clock (tick + MainGo.readings (take i images))%nat) img).
Proof.
  revert tick i. induction images as [|x images IH]; intros tick i Hi; [done|].
  destruct i as [|i].
  - injection Hi as ->. cbn [MainGo.iterations take]. unfold MainGo.readings.
    rewrite filter_nil, Nat.add_0_r. simpl.
    destruct (ImagePushedAt img) eqn:Hp; [done|].
    by rewrite process_image_no_push_time.
  - cbn [MainGo.iterations take]. simpl in Hi. unfold MainGo.readings.
    rewrite filter_cons. destruct (ImagePushedAt x) eqn:Hp.
    + rewrite decide_True by (by eexists). simpl.
      rewrite (IH (S tick) i Hi). unfold MainGo.readings.
      by rewrite Nat.add_succ_r.
    + rewrite decide_False by (intros [? ?]; done). simpl.
      by rewrite (IH tick i Hi).
Qed.

Lemma turn_reading (retained : gset string) (retention : Z) (dryRun : bool)
    (svc : Registry) (repoName : string) (clock : MainGo.Clock) (tick : nat)
    (images : list ImageDetail) (img : ImageDetail) (evs : list MainGo.event) :
  (img, evs) ∈ MainGo.iterations retained retention dryRun svc repoName clock tick images →
  ∃ i, images !! i = Some img ∧
       evs = MainGo.process_image retained retention dryRun svc repoName
               (clock (tick + MainGo.readings (take i images))%nat) img.
Proof.
  intros (i & Hi)%list_elem_of_lookup_1.
  assert (Himg : images !! i = Some img).
  { rewrite <- (iterations_fst retained retention dryRun svc repoName clock tick images).
    by rewrite list_lookup_fmap, Hi. }
  exists i. split; [done|].
  rewrite (iterations_lookup _ _ _ _ _ _ _ _ _ _ Himg) in Hi. congruence.
Qed.

(** C8: in main.go the turn of an untagged image with a push time emits the
    delete-candidate log entry and nothing else; a delete call is issued
    only outside dry-run and only for an image with a push time and with
    tags whose digest is not retained and whose age, taken from the clock
    reading of its own turn, exceeds the retention period. *)
Theorem C8_delete_call_only_for_old_tagged `{!SliceSorter}
    (prefixes : list string) (retention : Z) (dryRun : bool) (svc : Registry)
    (repoName : string) (clock : MainGo.Clock) (tick : nat) (images : list ImageDetail) :
  (∀ img pushed evs,
     (img, evs) ∈ MainGo.turns prefixes retention dryRun svc repoName clock tick images →
     ImagePushedAt img = Some pushed → ImageTags img = [] →
     evs = [MainGo.LogUntaggedCandidate (ImageDigest img)]) ∧
  (∀ repo d,
     MainGo.BatchDeleteImage repo d
       ∈ MainGo.process_repository prefixes retention dryRun svc repoName clock tick images →
     dryRun = false ∧ repo = repoName ∧
     ∃ i img pushed,
       images !! i = Some img ∧ ImageDigest img = d ∧
       ImagePushedAt img = Some pushed ∧ ImageTags img ≠ [] ∧
       (d ∉ MainGo.retainedDigests prefixes images) ∧
       retention
       < ageDays (Since (clock (tick + MainGo.readings (take i images))%nat) pushed)).
Proof.
  split.
  - intros img pushed evs Hturn Hp Htags.
    apply elem_of_iterations in Hturn as [_ [n Hevs]]. simpl in Hevs. subst evs.
    by apply (process_image_untagged _ _ _ _ _ _ _ pushed).
  - intros repo d Hin. unfold MainGo.process_repository in Hin.
    apply list_elem_of_In, in_flat_map in Hin as ([img evs] & Hturn & Hev).
    apply list_elem_of_In, turn_reading in Hturn as (i & Himg & ->).
    simpl in Hev.
    apply list_elem_of_In, BatchDeleteImage_in_turn in Hev
      as (-> & -> & -> & pushed & Hp & Htags & Hret & Hage).
    split_and!; try done. by exists i, img, pushed.
Qed.

Lemma C8_delete_call_only_for_old_tagged_witness :
  let images := [image "U" [] (Some 0); image "A" ["foo"] (Some 0)] in
  let clock : MainGo.Clock := λ n, Z.of_nat n * (40 * Day) in
  false = false ∧ "repo" = "repo" ∧
  ∃ i img pushed,
    images !! i = Some img ∧ ImageDigest img = "A" ∧
    ImagePushedAt img = Some pushed ∧ ImageTags img ≠ [] ∧
    ("A" ∉ @MainGo.retainedDigests GoInsertionSort ["latest"] images) ∧
    10 < ageDays (Since (clock (0 + MainGo.readings (take i images))%nat) pushed).
Proof.
  cbv zeta.
  apply (proj2 (C8_delete_call_only_for_old_tagged (H := GoInsertionSort)
                  ["latest"] 10 false deletes "repo" (λ n, Z.of_nat n * (40 * Day)) 0%nat
                  [image "U" [] (Some 0); image "A" ["foo"] (Some 0)]) "repo" "A").
  vm_compute. apply list_elem_of_further, list_elem_of_further, list_elem_of_here.
Defined.

(* ===================================================================== *)
(** ** Further properties: the inputs *)
(* ===================================================================== *)

Module InputFacts.

Lemma append_nil_l (s : string) : "" +:+ s = s.
Proof. reflexivity. Qed.

Lemma append_cons (c : ascii) (s1 s2 : string) :
  String c s1 +:+ s2 = String c (s1 +:+ s2).
Proof. reflexivity. Qed.

Lemma append_assoc (s1 s2 s3 : string) : (s1 +:+ s2) +:+ s3 = s1 +:+ s2 +:+ s3.
Proof.
  induction s1 as [|c s1 IH]; [done|].
  by rewrite !append_cons, IH.
Qed.

Lemma HasPrefix_app (s prefix : string) :
  HasPrefix s prefix = true ↔ ∃ rest, s = prefix +:+ rest.
Proof.
  revert s. induction prefix as [|c prefix IH]; intros s.
  { split; [intros _; exists s; reflexivity|intros _; apply HasPrefix_empty]. }
  destruct s as [|d s].
  { split; [done|]. by intros [rest ?]. }
  cbn [HasPrefix]. destruct (Ascii.eqb_spec c d) as [->|Hne].
  - rewrite IH. split; intros [rest Hrest]; exists rest.
    + by rewrite append_cons, Hrest.
    + rewrite append_cons in Hrest. by injection Hrest.
  - split; [done|]. intros [rest Hrest].
    rewrite append_cons in Hrest. injection Hrest as Hcd _. by destruct Hne.
Qed.

Lemma HasPrefix_trans (s p q : string) :
  HasPrefix s p = true → HasPrefix p q = true → HasPrefix s q = true.
Proof.
  rewrite !HasPrefix_app. intros [r1 ->] [r2 ->].
  exists (r2 +:+ r1). apply append_assoc.
Qed.

Lemma Split_app (s1 s2 : string) (sep : ascii) :
  Split (s1 +:+ String sep s2) sep = Split s1 sep ++ Split s2 sep.
Proof.
  induction s1 as [|c s1 IH].
  { rewrite append_nil_l. simpl. by rewrite Ascii.eqb_refl. }
  rewrite append_cons. cbn [Split].
  destruct (Ascii.eqb c sep); [by rewrite IH|].
  rewrite IH. pose proof (Split_nonempty s1 sep).
  by destruct (Split s1 sep).
Qed.

Lemma Split_concat (s : string) (sep : ascii) :
  String.concat (String sep EmptyString) (Split s sep) = s.
Proof.
  induction s as [|c s IH]; [done|]. cbn [Split].
  pose proof (Split_nonempty s sep) as Hne.
  destruct (Ascii.eqb_spec c sep) as [->|_].
  - destruct (Split s sep) as [|piece pieces]; [done|].
    cbn [String.concat]. cbn [String.concat] in IH.
    by rewrite append_nil_l, append_cons, append_nil_l, IH.
  - destruct (Split s sep) as [|piece pieces]; [done|].
    destruct pieces; cbn [String.concat] in *; [by rewrite IH|].
    by rewrite append_cons, IH.
Qed.

Lemma Split_pieces_free (s : string) (sep : ascii) (piece : string) :
  piece ∈ Split s sep → ∀ a b, piece ≠ a +:+ String sep b.
Proof.
  revert piece. induction s as [|c s IH]; intros piece; cbn [Split].
  { intros ->%list_elem_of_singleton [|? a] b; done. }
  destruct (Ascii.eqb_spec c sep) as [->|Hne].
  - intros [->|Hin]%elem_of_cons; [|by apply IH].
    intros [|? a] b; done.
  - pose proof (Split_nonempty s sep).
    destruct (Split s sep) as [|piece' pieces]; [done|].
    intros [->|Hin]%elem_of_cons.
    + intros [|d a] b.
      * rewrite append_nil_l. congruence.
      * rewrite append_cons. intros [= <- Heq].
        eapply (IH piece'); [by left|done].
    + apply IH. by right.
Qed.

Fixpoint count_byte (sep : ascii) (s : string) : nat :=
  match s with
  | EmptyString => 0
  | String c s' => (if Ascii.eqb c sep then 1 else 0) + count_byte sep s'
  end.

Lemma Split_length (s : string) (sep : ascii) :
  length (Split s sep) = S (count_byte sep s).
Proof.
  induction s as [|c s IH]; simpl; [done|].
  destruct (Ascii.eqb c sep); simpl; [by rewrite IH|].
  pose proof (Split_nonempty s sep).
  destruct (Split s sep); [done|]. simpl in *. lia.
Qed.

Lemma lower_y (c : ascii) :
  (if isUpperByte c then ascii_of_N (N_of_ascii c + 32) else c) = "y"%char →
  c = "y"%char ∨ c = "Y"%char.
Proof.
  destruct c as [[] [] [] [] [] [] [] []]; vm_compute; intros Heq;
    first [discriminate Heq | by left | by right].
Qed.

Lemma lower_e (c : ascii) :
  (if isUpperByte c then ascii_of_N (N_of_ascii c + 32) else c) = "e"%char →
  c = "e"%char ∨ c = "E"%char.
Proof.
  destruct c as [[] [] [] [] [] [] [] []]; vm_compute; intros Heq;
    first [discriminate Heq | by left | by right].
Qed.

Lemma lower_s (c : ascii) :
  (if isUpperByte c then ascii_of_N (N_of_ascii c + 32) else c) = "s"%char →
  c = "s"%char ∨ c = "S"%char.
Proof.
  destruct c as [[] [] [] [] [] [] [] []]; vm_compute; intros Heq;
    first [discriminate Heq | by left | by right].
Qed.

End InputFacts.

(** The flag [dryRun] computed from the variable [dryRunInput], the token
    that [fmt.Scanln] stored there: it is true only when the token is [yes]
    in any mix of upper and lower case; for every other ASCII token, [y] and
    the empty string included, it is false and the run is a live one. *)
Theorem dryRun_only_for_yes (unicodeToLower : string → string) (dryRunInput : string) :
  isASCII dryRunInput = true →
  dryRunOf unicodeToLower dryRunInput = true ↔
  dryRunInput ∈ ["yes"; "yeS"; "yEs"; "yES"; "Yes"; "YeS"; "YEs"; "YES"].
Proof.
  intros Hascii. unfold dryRunOf, ToLower. rewrite Hascii, String.eqb_eq. split.
  - destruct dryRunInput as [|c1 [|c2 [|c3 [|c4 rest]]]]; cbn [lowerASCII]; try done.
    intros [= H1%InputFacts.lower_y H2%InputFacts.lower_e H3%InputFacts.lower_s].
    destruct H1 as [-> | ->], H2 as [-> | ->], H3 as [-> | ->];
      repeat first [apply list_elem_of_here | apply list_elem_of_further].
  - rewrite !elem_of_cons, elem_of_nil.
    intros [->|[->|[->|[->|[->|[->|[->|[->|[]]]]]]]]]; reflexivity.
Qed.

Lemma dryRun_only_for_yes_witness :
  dryRunOf (λ s, s) "Yes" = true ↔
  "Yes" ∈ ["yes"; "yeS"; "yEs"; "yES"; "Yes"; "YeS"; "YEs"; "YES"].
Proof. apply (dryRun_only_for_yes (λ s, s) "Yes"). reflexivity. Defined.

(** The prefixes are the pieces of the input between its commas: joined
    with commas they give the input back, there is one more of them than
    there are commas, and none contains a comma. *)
Theorem Split_round_trip (prefixList : string) :
  String.concat "," (Split prefixList comma) = prefixList ∧
  length (Split prefixList comma) = S (InputFacts.count_byte comma prefixList) ∧
  Forall (λ prefix, InputFacts.count_byte comma prefix = 0%nat) (Split prefixList comma).
Proof.
  split_and!.
  - apply InputFacts.Split_concat.
  - apply InputFacts.Split_length.
  - induction prefixList as [|c s IH]; cbn [Split].
    { by repeat constructor. }
    pose proof (Split_nonempty s comma).
    destruct (Ascii.eqb c comma) eqn:Hc.
    + by constructor.
    + destruct (Split s comma) as [|piece pieces]; [done|].
      apply Forall_cons in IH as [Hpiece Hpieces].
      constructor; [|done]. simpl. by rewrite Hc.
Qed.

(** A prefix input with an empty piece (a comma at the start, at the end,
    or two commas in a row) puts the empty prefix in the list; then every
    tag starts with a prefix of the list: every tagged image is a match for
    test.go, and main.go files every tag in a group. *)
Theorem empty_piece_matches_every_tag (s1 s2 : string) (img : ImageDetail) :
  s1 = "" ∨ s2 = "" ∨ HasPrefix s2 "," = true →
  ImageTags img ≠ [] →
  let prefixes := Split (s1 +:+ String comma s2) comma in
  "" ∈ prefixes ∧
  TestGo.matched prefixes img = true ∧
  Forall (λ tag, is_Some (first_match prefixes tag)) (ImageTags img).
Proof.
  intros Hempty Htags prefixes.
  assert (Hin : "" ∈ prefixes).
  { unfold prefixes. rewrite InputFacts.Split_app. apply elem_of_app.
    destruct Hempty as [->|[->|Hs2]].
    - left. by left.
    - right. by left.
    - right. apply InputFacts.HasPrefix_app in Hs2 as [rest ->].
      change ("," +:+ rest) with ("" +:+ String comma rest).
      rewrite InputFacts.Split_app. apply elem_of_app. left. by left. }
  split_and!; [done| |].
  - unfold TestGo.matched. destruct (ImageTags img) as [|tag tags']; [done|].
    apply existsb_exists. exists tag. split; [by left|].
    apply existsb_exists. exists "". split; [by apply list_elem_of_In|].
    apply HasPrefix_empty.
  - apply Forall_forall. intros tag _.
    by apply (first_match_is_Some prefixes tag "" Hin), HasPrefix_empty.
Qed.

Lemma empty_piece_matches_every_tag_witness :
  let prefixes := Split "latest," comma in
  "" ∈ prefixes ∧
  TestGo.matched prefixes (image "A" ["v1"] (Some 1)) = true ∧
  Forall (λ tag, is_Some (first_match prefixes tag)) ["v1"].
Proof.
  cbv zeta.
  apply (empty_piece_matches_every_tag "latest" "" (image "A" ["v1"] (Some 1))).
  - right. left. reflexivity.
  - simpl. discriminate.
Defined.

(* ===================================================================== *)
(** ** Further properties: who gets the two slots *)
(* ===================================================================== *)

Module RankFacts.
Section rank.
Context {A : Type} (key : A → Time).
Implicit Types (l ranking : list A) (x : A).

(** In a ranking by push time, latest first, an element is among the first
    [n] when at most [n] elements, itself counted, are pushed at the same
    time or later. *)
Lemma few_later_in_take (n : nat) l ranking x :
  ranking ≡ₚ l →
  StronglySorted (λ a b, key b ≤ key a) ranking →
  x ∈ l →
  (length (filter (λ y, (key x ≤ key y)%Z) l) ≤ n)%nat →
  x ∈ take n ranking.
Proof.
  intros Hperm Hsorted Hx Hfew.
  rewrite <- Hperm in Hx, Hfew.
  apply list_elem_of_split in Hx as (l1 & l2 & ->).
  apply StronglySorted_app in Hsorted as (Hbefore & _ & _).
  rewrite filter_app, filter_cons_True, length_app in Hfew by lia.
  rewrite (filter_all _ l1) in Hfew.
  2:{ apply Forall_forall. intros y Hy. apply (Hbefore y x Hy). by left. }
  simpl in Hfew. apply elem_of_take. exists (length l1). split; [|lia].
  by rewrite list_lookup_middle.
Qed.

(** And an element among the first [n] has fewer than [n] elements pushed
    strictly later. *)
Lemma in_take_few_strictly_later (n : nat) l ranking x :
  ranking ≡ₚ l →
  StronglySorted (λ a b, key b ≤ key a) ranking →
  x ∈ take n ranking →
  (length (filter (λ y, (key x < key y)%Z) l) < n)%nat.
Proof.
  intros Hperm Hsorted (i & Hi & Hlt)%elem_of_take.
  rewrite <- Hperm.
  rewrite <- (take_drop_middle ranking i x Hi) in Hsorted |- *.
  apply StronglySorted_app in Hsorted as (_ & _ & Hafter).
  apply StronglySorted_cons in Hafter as [Hafter _].
  rewrite filter_app, filter_cons_False, length_app by lia.
  rewrite (filter_none _ (drop (S i) ranking)).
  2:{ rewrite Forall_forall in Hafter |- *. intros y Hy. specialize (Hafter y Hy). lia. }
  pose proof (length_filter (λ y, key x < key y) (take i ranking)) as Hlen.
  rewrite length_take in Hlen. simpl. lia.
Qed.
End rank.
End RankFacts.

Module TestGoTrace.
Import TestGo.
Section with_sorter.
Context `{!SliceSorter}.

Lemma elem_of_toDelete prefixes images img :
  img ∈ toDelete prefixes images ↔
  (img ∈ taggedMatches (scan prefixes images) ∧ ImageDigest img ∉ keepMap prefixes images)
  ∨ img ∈ untagged (scan prefixes images).
Proof.
  unfold toDelete. rewrite elem_of_app, list_elem_of_filter.
  unfold ranked. rewrite sort_Slice_Permutation. tauto.
Qed.

Lemma LogRetaining_in_trace prefixes dryRun svc repoName images d :
  LogRetaining d ∈ process_repository prefixes dryRun svc repoName images ↔
  d ∈ keepMap prefixes images.
Proof.
  unfold process_repository, keepMap.
  rewrite elem_of_app, elem_of_list_to_set, !list_elem_of_fmap. split.
  - intros [(img & [= ->] & Himg)|Hin]; [by exists img|].
    apply list_elem_of_In, in_flat_map in Hin as (img & _ & Hev).
    unfold delete_image in Hev. destruct dryRun; simpl in Hev.
    + by destruct Hev as [?|[]].
    + destruct Hev as [?|[Hev|[]]]; [done|]. by destruct (svc _ _).
  - intros (img & -> & Himg). left. by exists img.
Qed.

Lemma BatchDeleteImage_in_trace prefixes dryRun svc repoName images repo d :
  BatchDeleteImage repo d ∈ process_repository prefixes dryRun svc repoName images ↔
  dryRun = false ∧ repo = repoName ∧
  ∃ img, img ∈ toDelete prefixes images ∧ ImageDigest img = d.
Proof.
  unfold process_repository. rewrite elem_of_app. split.
  - intros [(img & [=] & _)%list_elem_of_fmap|Hin].
    apply list_elem_of_In, in_flat_map in Hin as (img & Himg%list_elem_of_In & Hev).
    unfold delete_image in Hev. destruct dryRun; simpl in Hev.
    + by destruct Hev as [?|[]].
    + destruct Hev as [[= <- <-]|[Hev|[]]]; [by eauto|]. by destruct (svc _ _).
  - intros (-> & -> & img & Himg & <-). right.
    apply list_elem_of_In, in_flat_map. exists img.
    split; [by apply list_elem_of_In|]. by left.
Qed.

Lemma LogDryRun_in_trace prefixes dryRun svc repoName images d :
  LogDryRun d ∈ process_repository prefixes dryRun svc repoName images ↔
  dryRun = true ∧ ∃ img, img ∈ toDelete prefixes images ∧ ImageDigest img = d.
Proof.
  unfold process_repository. rewrite elem_of_app. split.
  - intros [(img & [=] & _)%list_elem_of_fmap|Hin].
    apply list_elem_of_In, in_flat_map in Hin as (img & Himg%list_elem_of_In & Hev).
    unfold delete_image in Hev. destruct dryRun; simpl in Hev.
    + destruct Hev as [[= <-]|[]]. by eauto.
    + destruct Hev as [?|[Hev|[]]]; [done|]. by destruct (svc _ _).
  - intros (-> & img & Himg & <-). right.
    apply list_elem_of_In, in_flat_map. exists img.
    split; [by apply list_elem_of_In|]. by left.
Qed.

End with_sorter.
End TestGoTrace.

Lemma size_list_to_set_le (l : list string) :
  (size (list_to_set l : gset string) ≤ length l)%nat.
Proof.
  induction l as [|x l IH].
  { done. }
  cbn [list_to_set length]. rewrite size_union_alt, size_singleton.
  pose proof (subseteq_size (list_to_set l ∖ {[x]}) (list_to_set l : gset string)) as Hsub.
  assert (list_to_set l ∖ {[x]} ⊆ (list_to_set l : gset string)) by set_solver.
  specialize (Hsub ltac:(done)). lia.
Qed.

Section test_go_slots.
Context `{!SliceSorter}.
Implicit Types (prefixes : list string) (images : list ImageDetail) (img : ImageDetail).

Lemma taggedMatches_in_images prefixes images img :
  img ∈ TestGo.taggedMatches (TestGo.scan prefixes images) →
  img ∈ images ∧ is_Some (ImagePushedAt img) ∧ ImageTags img ≠ [] ∧
  TestGo.matched prefixes img = true.
Proof.
  rewrite taggedMatches_scan. intros [(? & ? & ?) ?]%list_elem_of_filter. done.
Qed.

Lemma toDelete_in_images prefixes images img :
  img ∈ TestGo.toDelete prefixes images → img ∈ images.
Proof.
  rewrite TestGoTrace.elem_of_toDelete, taggedMatches_scan, untagged_scan.
  rewrite !list_elem_of_filter. tauto.
Qed.

Lemma retainedImages_in_matches prefixes images img :
  img ∈ TestGo.retainedImages prefixes images →
  img ∈ TestGo.taggedMatches (TestGo.scan prefixes images).
Proof.
  unfold TestGo.retainedImages. intros (i & Hi & _)%elem_of_take.
  apply list_elem_of_lookup_2 in Hi. unfold TestGo.ranked in Hi.
  by rewrite sort_Slice_Permutation in Hi.
Qed.

Lemma keepMap_retained prefixes images img :
  NoDup (ImageDigest <$> images) →
  img ∈ images →
  ImageDigest img ∈ TestGo.keepMap prefixes images →
  img ∈ TestGo.retainedImages prefixes images.
Proof.
  intros Hnd Himg. unfold TestGo.keepMap.
  rewrite elem_of_list_to_set, list_elem_of_fmap. intros (img' & Heq & Himg').
  assert (img' ∈ images).
  { pose proof Himg' as Hm.
    apply retainedImages_in_matches, taggedMatches_in_images in Hm. by destruct Hm. }
  by rewrite (NoDup_fmap_eq ImageDigest images img img').
Qed.

End test_go_slots.

(** test.go keeps two images of a repository at most, however many prefixes
    are given: as many as there are matches when there are fewer than two. *)
Theorem test_go_retains_at_most_two `{!SliceSorter}
    (prefixes : list string) (images : list ImageDetail) :
  length (TestGo.retainedImages prefixes images)
  = Nat.min 2 (length (TestGo.taggedMatches (TestGo.scan prefixes images))) ∧
  (size (TestGo.keepMap prefixes images) ≤ 2)%nat.
Proof.
  assert (Hlen : length (TestGo.retainedImages prefixes images)
    = Nat.min 2 (length (TestGo.taggedMatches (TestGo.scan prefixes images)))).
  { unfold TestGo.retainedImages, TestGo.ranked.
    by rewrite length_take, sort_Slice_Permutation. }
  split; [done|]. unfold TestGo.keepMap.
  etransitivity; [apply size_list_to_set_le|]. rewrite length_fmap, Hlen. lia.
Qed.

(** test.go retains a matching image, and with distinct digests never puts
    it up for deletion, when at most two matching images of the repository,
    itself counted, are pushed at the same time or later; this holds however
    [sort.Slice] orders equal push times. *)
Theorem test_go_keeps_the_latest_two `{!SliceSorter}
    (prefixes : list string) (dryRun : bool) (svc : Registry) (repoName : string)
    (images : list ImageDetail) (img : ImageDetail) :
  img ∈ TestGo.taggedMatches (TestGo.scan prefixes images) →
  (length (filter (λ other, (TestGo.pushedAt img ≤ TestGo.pushedAt other)%Z)
             (TestGo.taggedMatches (TestGo.scan prefixes images))) ≤ 2)%nat →
  img ∈ TestGo.retainedImages prefixes images ∧
  TestGo.LogRetaining (ImageDigest img)
    ∈ TestGo.process_repository prefixes dryRun svc repoName images ∧
  (NoDup (ImageDigest <$> images) →
   (img ∉ TestGo.toDelete prefixes images) ∧
   (TestGo.BatchDeleteImage repoName (ImageDigest img)
      ∉ TestGo.process_repository prefixes dryRun svc repoName images)).
Proof.
  intros Hmatch Hfew.
  assert (Hret : img ∈ TestGo.retainedImages prefixes images).
  { unfold TestGo.retainedImages.
    apply (RankFacts.few_later_in_take TestGo.pushedAt keepCount
             (TestGo.taggedMatches (TestGo.scan prefixes images)));
      [apply sort_Slice_Permutation|apply matches_ranked_sorted|done|done]. }
  assert (Hkeep : ImageDigest img ∈ TestGo.keepMap prefixes images).
  { unfold TestGo.keepMap. apply elem_of_list_to_set. by apply list_elem_of_fmap_2. }
  split_and!; [done|by apply TestGoTrace.LogRetaining_in_trace|].
  intros Hnd.
  assert (Hnot : img ∉ TestGo.toDelete prefixes images).
  { rewrite TestGoTrace.elem_of_toDelete, untagged_scan, list_elem_of_filter.
    apply taggedMatches_in_images in Hmatch as (_ & _ & Htags & _).
    intros [[_ ?]|[[_ ?] _]]; done. }
  split; [done|].
  rewrite TestGoTrace.BatchDeleteImage_in_trace.
  intros (_ & _ & img' & Hdel & Heq).
  assert (img' = img) as ->; [|done].
  apply (NoDup_fmap_eq ImageDigest images); try done.
  - by apply toDelete_in_images in Hdel.
  - by apply taggedMatches_in_images in Hmatch as [? _].
Qed.

Lemma test_go_keeps_the_latest_two_witness :
  let images := [image "A" ["latest"] (Some 5); image "B" ["latest"] (Some 5);
                 image "C" ["latest"] (Some 1)] in
  let img := image "B" ["latest"] (Some 5) in
  img ∈ TestGo.retainedImages ["latest"] images ∧
  TestGo.LogRetaining "B" ∈ TestGo.process_repository ["latest"] false deletes "repo" images ∧
  (NoDup (ImageDigest <$> images) →
   (img ∉ TestGo.toDelete ["latest"] images) ∧
   (TestGo.BatchDeleteImage "repo" "B"
      ∉ TestGo.process_repository ["latest"] false deletes "repo" images)).
Proof.
  cbv zeta.
  apply (test_go_keeps_the_latest_two (H := GoInsertionSort) ["latest"] false deletes "repo").
  - vm_compute. apply list_elem_of_further, list_elem_of_here.
  - vm_compute. lia.
Defined.

(** With distinct digests, test.go deletes every matching image that has two
    or more matching images pushed strictly later, whatever its age: in a
    live run the delete call for it is issued, in a dry run it is announced. *)
Theorem test_go_deletes_the_outranked `{!SliceSorter}
    (prefixes : list string) (svc : Registry) (repoName : string)
    (images : list ImageDetail) (img : ImageDetail) :
  NoDup (ImageDigest <$> images) →
  img ∈ TestGo.taggedMatches (TestGo.scan prefixes images) →
  (2 ≤ length (filter (λ other, (TestGo.pushedAt img < TestGo.pushedAt other)%Z)
                 (TestGo.taggedMatches (TestGo.scan prefixes images))))%nat →
  img ∈ TestGo.toDelete prefixes images ∧
  TestGo.BatchDeleteImage repoName (ImageDigest img)
    ∈ TestGo.process_repository prefixes false svc repoName images ∧
  TestGo.LogDryRun (ImageDigest img)
    ∈ TestGo.process_repository prefixes true svc repoName images.
Proof.
  intros Hnd Hmatch Hlater.
  assert (Hdel : img ∈ TestGo.toDelete prefixes images).
  { apply TestGoTrace.elem_of_toDelete. left. split; [done|].
    intros Hkeep. apply keepMap_retained in Hkeep; [|done|].
    2:{ by apply taggedMatches_in_images in Hmatch as [? _]. }
    unfold TestGo.retainedImages in Hkeep.
    apply (RankFacts.in_take_few_strictly_later TestGo.pushedAt keepCount
             (TestGo.taggedMatches (TestGo.scan prefixes images))) in Hkeep;
      [|apply sort_Slice_Permutation|apply matches_ranked_sorted].
    unfold keepCount in Hkeep. lia. }
  split_and!; [done| |].
  - apply TestGoTrace.BatchDeleteImage_in_trace. split_and!; try done. by exists img.
  - apply TestGoTrace.LogDryRun_in_trace. split; [done|]. by exists img.
Qed.

Lemma test_go_deletes_the_outranked_witness :
  let images := [image "A" ["latest"] (Some 5); image "B" ["latest"] (Some 4);
                 image "C" ["latest"] (Some 3)] in
  let img := image "C" ["latest"] (Some 3) in
  img ∈ TestGo.toDelete ["latest"] images ∧
  TestGo.BatchDeleteImage "repo" "C"
    ∈ TestGo.process_repository ["latest"] false deletes "repo" images ∧
  TestGo.LogDryRun "C" ∈ TestGo.process_repository ["latest"] true deletes "repo" images.
Proof.
  cbv zeta.
  apply (test_go_deletes_the_outranked (H := GoInsertionSort) ["latest"] deletes "repo").
  - apply (bool_decide_unpack _). vm_compute. exact I.
  - vm_compute. apply list_elem_of_further, list_elem_of_further, list_elem_of_here.
  - vm_compute. lia.
Defined.

(* ===================================================================== *)
(** ** Further properties: what test.go deletes *)
(* ===================================================================== *)

(** The delete calls of a whole run of test.go: a call is issued only in a
    live run, for a repository that was listed with its images and for the
    digest of one of those images that has a push time and is either
    untagged, or a match whose digest is not kept; and for each such image
    the call is issued.  Tagged images that match no prefix and (with
    distinct digests) images without a push time are never deleted. *)
Theorem test_go_delete_calls `{!SliceSorter}
    (prefixList : string) (dryRun : bool) (svc : Registry)
    (repos : list (string * option (list ImageDetail))) (repo d : string) :
  TestGo.BatchDeleteImage repo d ∈ TestGo.main prefixList dryRun svc repos ↔
  dryRun = false ∧
  ∃ images img,
    (repo, Some images) ∈ repos ∧ img ∈ images ∧ ImageDigest img = d ∧
    is_Some (ImagePushedAt img) ∧
    (ImageTags img = [] ∨
     (TestGo.matched (Split prefixList comma) img = true ∧
      d ∉ TestGo.keepMap (Split prefixList comma) images)).
Proof.
  unfold TestGo.main. rewrite list_elem_of_In, in_flat_map. split.
  - intros ([name described] & Hrepo%list_elem_of_In & Hev%list_elem_of_In).
    simpl in Hev. destruct described as [images|]; [|by apply elem_of_nil in Hev].
    assert (Hev' : TestGo.BatchDeleteImage repo d
      ∈ TestGo.process_repository (Split prefixList comma) dryRun svc name images).
    { destruct images; [by apply elem_of_nil in Hev|done]. }
    apply TestGoTrace.BatchDeleteImage_in_trace in Hev' as (-> & -> & img & Hdel & <-).
    split; [done|]. exists images, img.
    pose proof (toDelete_in_images _ _ _ Hdel) as Himg.
    apply TestGoTrace.elem_of_toDelete in Hdel as [[Hm Hkeep]|Hun].
    + apply taggedMatches_in_images in Hm as (_ & Hp & _ & Hm). split_and!; try done.
      by right.
    + rewrite untagged_scan in Hun. apply list_elem_of_filter in Hun as [[Hp Hnil] _].
      split_and!; try done. by left.
  - intros (-> & images & img & Hrepo & Himg & <- & Hp & Hcase).
    exists (repo, Some images). split; [by apply list_elem_of_In|].
    apply list_elem_of_In. simpl.
    assert (Hev : TestGo.BatchDeleteImage repo (ImageDigest img)
      ∈ TestGo.process_repository (Split prefixList comma) false svc repo images).
    { apply TestGoTrace.BatchDeleteImage_in_trace. split_and!; try done.
      exists img. split; [|done]. apply TestGoTrace.elem_of_toDelete.
      destruct (decide (ImageTags img = [])) as [Hnil|Htags].
      - right. rewrite untagged_scan. by apply list_elem_of_filter.
      - destruct Hcase as [?|[Hm Hkeep]]; [done|]. left. split; [|done].
        rewrite taggedMatches_scan. by apply list_elem_of_filter. }
    destruct images; [by apply elem_of_nil in Himg|done].
Qed.

Module TestGoReport.
(** The digest a dry-run line announces, the digest a delete call names and
    the digest a retaining line names. *)
Definition announced (ev : TestGo.event) : option string :=
  match ev with TestGo.LogDryRun d => Some d | _ => None end.
Definition called (ev : TestGo.event) : option string :=
  match ev with TestGo.BatchDeleteImage _ d => Some d | _ => None end.
Definition retaining (ev : TestGo.event) : option string :=
  match ev with TestGo.LogRetaining d => Some d | _ => None end.

Lemma omap_flat_map {A B C} (f : B → option C) (g : A → list B) (l : list A) :
  omap f (flat_map g l) = l ≫= (λ x, omap f (g x)).
Proof.
  induction l as [|x l IH]; [done|]. simpl. by rewrite omap_app, IH.
Qed.

Lemma retaining_lines_called (kept : list ImageDetail) :
  omap called ((λ img, TestGo.LogRetaining (ImageDigest img)) <$> kept) = [].
Proof. induction kept as [|img kept IH]; [done|exact IH]. Qed.

Lemma retaining_lines_announced (kept : list ImageDetail) :
  omap announced ((λ img, TestGo.LogRetaining (ImageDigest img)) <$> kept) = [].
Proof. induction kept as [|img kept IH]; [done|exact IH]. Qed.

Lemma retaining_lines_retaining (kept : list ImageDetail) :
  omap retaining ((λ img, TestGo.LogRetaining (ImageDigest img)) <$> kept)
  = ImageDigest <$> kept.
Proof.
  induction kept as [|img kept IH]; [done|].
  change (ImageDigest img :: omap retaining
            ((λ img, TestGo.LogRetaining (ImageDigest img)) <$> kept)
          = ImageDigest img :: (ImageDigest <$> kept)).
  by rewrite IH.
Qed.

Lemma delete_lines_called dryRun svc repoName (doomed : list ImageDetail) :
  omap called (flat_map (TestGo.delete_image dryRun svc repoName) doomed)
  = if dryRun then [] else ImageDigest <$> doomed.
Proof.
  induction doomed as [|img doomed IH]; [by destruct dryRun|].
  cbn [flat_map]. rewrite omap_app, IH. unfold TestGo.delete_image.
  destruct dryRun; [done|]. by destruct (svc _ _).
Qed.

Lemma delete_lines_announced dryRun svc repoName (doomed : list ImageDetail) :
  omap announced (flat_map (TestGo.delete_image dryRun svc repoName) doomed)
  = if dryRun then ImageDigest <$> doomed else [].
Proof.
  induction doomed as [|img doomed IH]; [by destruct dryRun|].
  cbn [flat_map]. rewrite omap_app, IH. unfold TestGo.delete_image.
  destruct dryRun; [done|]. by destruct (svc _ _).
Qed.

Lemma delete_lines_retaining dryRun svc repoName (doomed : list ImageDetail) :
  omap retaining (flat_map (TestGo.delete_image dryRun svc repoName) doomed) = [].
Proof.
  induction doomed as [|img doomed IH]; [done|].
  cbn [flat_map]. rewrite omap_app, IH. unfold TestGo.delete_image.
  destruct dryRun; [done|]. by destruct (svc _ _).
Qed.

Section with_sorter.
Context `{!SliceSorter}.

Lemma repository_report prefixes dryRun svc repoName images :
  omap called (TestGo.process_repository prefixes dryRun svc repoName images)
  = (if dryRun then [] else ImageDigest <$> TestGo.toDelete prefixes images) ∧
  omap announced (TestGo.process_repository prefixes dryRun svc repoName images)
  = (if dryRun then ImageDigest <$> TestGo.toDelete prefixes images else []) ∧
  omap retaining (TestGo.process_repository prefixes dryRun svc repoName images)
  = ImageDigest <$> TestGo.retainedImages prefixes images.
Proof.
  unfold TestGo.process_repository. rewrite !omap_app.
  rewrite retaining_lines_called, retaining_lines_announced, retaining_lines_retaining.
  rewrite delete_lines_called, delete_lines_announced, delete_lines_retaining.
  by rewrite app_nil_r.
Qed.
End with_sorter.
End TestGoReport.

(** A dry run of test.go is a faithful preview: it issues no delete call,
    it announces the digests that a live run on the same input deletes, in
    the same order, and it retains the same images. *)
Theorem test_go_dry_run_is_faithful `{!SliceSorter}
    (prefixList : string) (svc svc' : Registry)
    (repos : list (string * option (list ImageDetail))) :
  omap TestGoReport.called (TestGo.main prefixList true svc repos) = [] ∧
  omap TestGoReport.announced (TestGo.main prefixList true svc repos)
  = omap TestGoReport.called (TestGo.main prefixList false svc' repos) ∧
  omap TestGoReport.retaining (TestGo.main prefixList true svc repos)
  = omap TestGoReport.retaining (TestGo.main prefixList false svc' repos).
Proof.
  unfold TestGo.main. rewrite !TestGoReport.omap_flat_map.
  induction repos as [|[name described] repos (IH1 & IH2 & IH3)]; [done|].
  cbn [mbind list_bind]. rewrite IH1, IH2, IH3. simpl.
  destruct described as [[|img images]|]; try done.
  destruct (TestGoReport.repository_report (Split prefixList comma) true svc name
              (img :: images)) as (-> & -> & ->).
  destruct (TestGoReport.repository_report (Split prefixList comma) false svc' name
              (img :: images)) as (-> & _ & ->).
  done.
Qed.

(** The images left in a repository when every delete call of a live run
    of test.go succeeds: [BatchDeleteImage] removes the image with the digest
    it is given. *)
Definition remaining `{!SliceSorter} (prefixes : list string) (images : list ImageDetail)
    : list ImageDetail :=
  filter (λ img, ImageDigest img
                 ∉ (list_to_set (ImageDigest <$> TestGo.toDelete prefixes images)
                    : gset string))
         images.

Section second_run.
Context `{!SliceSorter}.
Variables (prefixes : list string) (images : list ImageDetail).
Hypothesis distinct : NoDup (ImageDigest <$> images).

Lemma remaining_spec img :
  img ∈ remaining prefixes images ↔ img ∈ images ∧ img ∉ TestGo.toDelete prefixes images.
Proof.
  unfold remaining. rewrite list_elem_of_filter, elem_of_list_to_set, list_elem_of_fmap.
  split.
  - intros [Hd Himg]. split; [done|]. intros Hdel. apply Hd. by exists img.
  - intros [Himg Hdel]. split; [|done]. intros (img' & Heq & Hdel').
    assert (img = img') as <-; [|done].
    apply (NoDup_fmap_eq ImageDigest images); try done.
    by apply toDelete_in_images in Hdel'.
Qed.

Lemma remaining_untagged : filter is_untagged (remaining prefixes images) = [].
Proof.
  apply filter_none, Forall_forall. intros img [Himg Hdel]%remaining_spec Hun.
  apply Hdel, TestGoTrace.elem_of_toDelete. right.
  rewrite untagged_scan. by apply list_elem_of_filter.
Qed.

Lemma remaining_matches img :
  img ∈ filter (is_match prefixes) (remaining prefixes images) ↔
  img ∈ TestGo.retainedImages prefixes images.
Proof.
  rewrite list_elem_of_filter, remaining_spec. split.
  - intros (Hm & Himg & Hdel). apply keepMap_retained; try done.
    destruct (decide (ImageDigest img ∈ TestGo.keepMap prefixes images)); [done|].
    destruct Hdel. apply TestGoTrace.elem_of_toDelete. left. split; [|done].
    rewrite taggedMatches_scan. by apply list_elem_of_filter.
  - intros Hret. pose proof Hret as Hm.
    apply retainedImages_in_matches in Hm. pose proof Hm as Hm'.
    rewrite taggedMatches_scan in Hm'. apply list_elem_of_filter in Hm' as [Hm' Himg].
    split_and!; try done.
    rewrite TestGoTrace.elem_of_toDelete, untagged_scan, list_elem_of_filter.
    intros [[_ Hkeep]|[[_ Hnil] _]].
    + apply Hkeep. unfold TestGo.keepMap. apply elem_of_list_to_set.
      by apply list_elem_of_fmap_2.
    + by destruct Hm' as (_ & ? & _).
Qed.

Lemma remaining_ranked_short :
  (length (TestGo.ranked prefixes (remaining prefixes images)) ≤ keepCount)%nat.
Proof.
  rewrite matches_ranked_Permutation, <- (length_fmap ImageDigest).
  transitivity (length (ImageDigest <$> TestGo.retainedImages prefixes images)).
  - apply submseteq_length, NoDup_submseteq.
    + unfold remaining. by do 2 apply NoDup_fmap_filter.
    + intros d (img & -> & Himg%remaining_matches)%list_elem_of_fmap.
      by apply list_elem_of_fmap_2.
  - rewrite length_fmap. unfold TestGo.retainedImages. rewrite length_take. lia.
Qed.

End second_run.

(** With distinct digests, test.go is done after one successful live run: a
    second run on the images that are left keeps the same digests and finds
    nothing to delete. *)
Theorem test_go_second_run_deletes_nothing `{!SliceSorter}
    (prefixes : list string) (images : list ImageDetail) :
  NoDup (ImageDigest <$> images) →
  TestGo.toDelete prefixes (remaining prefixes images) = [] ∧
  TestGo.keepMap prefixes (remaining prefixes images) = TestGo.keepMap prefixes images.
Proof.
  intros Hnd.
  pose proof (remaining_ranked_short prefixes images Hnd) as Hshort.
  assert (Hkeep : ∀ d, d ∈ TestGo.keepMap prefixes (remaining prefixes images)
                       ↔ d ∈ ImageDigest <$> TestGo.retainedImages prefixes images).
  { intros d. unfold TestGo.keepMap at 1, TestGo.retainedImages at 1.
    rewrite take_ge, elem_of_list_to_set, matches_ranked_Permutation by done.
    rewrite !list_elem_of_fmap.
    split; intros (img & -> & Himg); exists img; split; try done;
      by apply (remaining_matches prefixes images Hnd). }
  split.
  - unfold TestGo.toDelete.
    rewrite untagged_scan, (remaining_untagged prefixes images Hnd), app_nil_r.
    apply filter_none, Forall_forall. intros img Himg Hnot. apply Hnot, Hkeep.
    apply list_elem_of_fmap_2, (remaining_matches prefixes images Hnd).
    by rewrite <- matches_ranked_Permutation.
  - apply set_eq. intros d. rewrite Hkeep. unfold TestGo.keepMap.
    by rewrite elem_of_list_to_set.
Qed.

Lemma test_go_second_run_deletes_nothing_witness :
  let images := [image "A" ["latest"] (Some 5); image "B" ["latest"] (Some 4);
                 image "C" ["latest"] (Some 3); image "U" [] (Some 9);
                 image "F" ["foo"] (Some 1)] in
  TestGo.toDelete ["latest"] (remaining ["latest"] images) = [] ∧
  TestGo.keepMap ["latest"] (remaining ["latest"] images) = TestGo.keepMap ["latest"] images.
Proof.
  cbv zeta.
  apply (test_go_second_run_deletes_nothing (H := GoInsertionSort)).
  apply (bool_decide_unpack _). vm_compute. exact I.
Defined.

(* ===================================================================== *)
(** ** Further properties: the groups and the retained digests of main.go *)
(* ===================================================================== *)

Module GroupFacts.
Import MainGo.

Lemma first_match_app_list (before after : list string) (tag : string) :
  first_match (before ++ after) tag =
  match first_match before tag with
  | Some prefix => Some prefix
  | None => first_match after tag
  end.
Proof.
  induction before as [|p before IH]; simpl; [done|].
  by destruct (HasPrefix tag p).
Qed.

Lemma group_empty prefixes images prefix :
  (∀ tag, first_match prefixes tag ≠ Some prefix) →
  group prefixes images prefix = [].
Proof.
  intros Hnever. rewrite group_entries.
  induction images as [|img images IH]; [done|].
  cbn [mbind list_bind]. rewrite IH, app_nil_r. unfold entries_for.
  destruct (ImagePushedAt img); [|done].
  rewrite filter_none; [done|]. apply Forall_forall. intros tag _. apply Hnever.
Qed.

Lemma append_group_keys (prefixes : list string) prefix entry
    (m : gmap string (list taggedImage)) :
  prefix ∈ prefixes →
  dom m ⊆ (list_to_set prefixes : gset string) →
  dom (append_group prefix entry m) ⊆ (list_to_set prefixes : gset string).
Proof.
  intros Hin Hdom. unfold append_group. rewrite dom_insert_L.
  apply union_subseteq. split; [|done].
  apply singleton_subseteq_l. by apply elem_of_list_to_set.
Qed.

Lemma match_tag_keys (prefixes : list string) entry tag
    (m : gmap string (list taggedImage)) :
  dom m ⊆ (list_to_set prefixes : gset string) →
  dom (match_tag prefixes entry tag m) ⊆ (list_to_set prefixes : gset string).
Proof.
  intros Hdom. rewrite match_tag_first_match.
  destruct (first_match prefixes tag) as [prefix|] eqn:Hfirst; [|done].
  apply append_group_keys; [|done]. by apply first_match_elem_of in Hfirst as [? _].
Qed.

Lemma group_image_keys (prefixes : list string) img
    (m : gmap string (list taggedImage)) :
  dom m ⊆ (list_to_set prefixes : gset string) →
  dom (group_image prefixes m img) ⊆ (list_to_set prefixes : gset string).
Proof.
  intros Hdom. unfold group_image.
  destruct (ImagePushedAt img) as [pushed|]; [|done].
  destruct (ImageTags img) as [|tag0 tags0]; [done|].
  generalize (tag0 :: tags0) as tags'. intros tags'. revert m Hdom.
  induction tags' as [|tag tags' IH]; intros m Hdom; [done|].
  cbn [foldl]. by apply IH, match_tag_keys.
Qed.

(** The keys of the map are prefixes of the list. *)
Lemma prefixMatchMap_keys (prefixes : list string) (images : list ImageDetail) :
  dom (prefixMatchMap prefixes images) ⊆ (list_to_set prefixes : gset string).
Proof.
  unfold prefixMatchMap.
  assert (Hempty : dom (∅ : gmap string (list taggedImage))
                   ⊆ (list_to_set prefixes : gset string)).
  { rewrite dom_empty_L. apply empty_subseteq. }
  revert Hempty. generalize (∅ : gmap string (list taggedImage)) as m.
  induction images as [|img images IH]; intros m Hdom; [done|].
  cbn [foldl]. by apply IH, group_image_keys.
Qed.

Lemma size_union_le (X Y : gset string) : (size (X ∪ Y) ≤ size X + size Y)%nat.
Proof.
  rewrite size_union_alt.
  assert (Y ∖ X ⊆ Y) as Hsub%subseteq_size by set_solver. lia.
Qed.

Section with_sorter.
Context `{!SliceSorter}.

Lemma size_foldl_retain_group acc (groups : list (string * list taggedImage)) :
  (size (foldl (λ retained g, retain_group retained g.2) acc groups)
   ≤ size acc + keepCount * length groups)%nat.
Proof.
  revert acc. induction groups as [|g groups IH]; intros acc; simpl; [lia|].
  etransitivity; [apply IH|]. rewrite retain_group_union.
  pose proof (size_union_le acc (list_to_set (digest <$> take keepCount (ranked g.2)))).
  pose proof (size_list_to_set_le (digest <$> take keepCount (ranked g.2))) as Hle.
  rewrite length_fmap, length_take in Hle. unfold keepCount in *. lia.
Qed.

End with_sorter.
End GroupFacts.

(** A prefix that begins with another prefix listed before it never gets
    an image: every tag that starts with the later prefix starts with the
    earlier one and is filed there, so the group of the later prefix stays
    empty whatever the images. *)
Theorem shadowed_prefix_group_is_empty
    (before after : list string) (earlier later : string) (images : list ImageDetail) :
  HasPrefix later earlier = true →
  later ≠ earlier →
  later ∉ before →
  MainGo.group (before ++ earlier :: after) images later = [].
Proof.
  intros Hpre Hne Hnot. apply GroupFacts.group_empty. intros tag Hfirst.
  pose proof (first_match_elem_of _ _ _ Hfirst) as [_ Htag].
  rewrite GroupFacts.first_match_app_list in Hfirst.
  destruct (first_match before tag) as [p|] eqn:Hbefore.
  - injection Hfirst as ->. by apply first_match_elem_of in Hbefore as [? _].
  - simpl in Hfirst.
    rewrite (InputFacts.HasPrefix_trans tag later earlier Htag Hpre) in Hfirst.
    congruence.
Qed.

Lemma shadowed_prefix_group_is_empty_witness :
  HasPrefix "dev-1" "dev-" = true ∧
  MainGo.group (["latest"] ++ "dev" :: ["dev-"; "main"])
    [image "A" ["dev-1"] (Some 1); image "B" ["dev-2"; "latest"] (Some 2)] "dev-" = [].
Proof.
  split; [reflexivity|].
  apply (shadowed_prefix_group_is_empty ["latest"] ["dev-"; "main"] "dev" "dev-").
  - reflexivity.
  - discriminate.
  - apply (bool_decide_unpack _). vm_compute. exact I.
Defined.

(** main.go retains at most two digests for each prefix of the list, so at
    most twice as many digests as there are prefixes in a repository. *)
Theorem main_go_retains_two_per_prefix `{!SliceSorter}
    (prefixes : list string) (images : list ImageDetail) :
  (size (MainGo.retainedDigests prefixes images) ≤ 2 * length prefixes)%nat.
Proof.
  unfold MainGo.retainedDigests, MainGo.retain_groups.
  etransitivity; [apply GroupFacts.size_foldl_retain_group|].
  rewrite size_empty, length_map_to_list, <- (size_dom (D := gset string)).
  pose proof (subseteq_size _ _ (GroupFacts.prefixMatchMap_keys prefixes images)) as Hdom.
  pose proof (size_list_to_set_le prefixes). unfold keepCount. lia.
Qed.

(** Every digest that main.go retains is the digest of a listed image that
    has a push time and a tag starting with a prefix of the list. *)
Theorem main_go_retains_only_tag_matches `{!SliceSorter}
    (prefixes : list string) (images : list ImageDetail) (d : string) :
  d ∈ MainGo.retainedDigests prefixes images →
  ∃ img pushed tag prefix,
    img ∈ images ∧ ImageDigest img = d ∧ ImagePushedAt img = Some pushed ∧
    tag ∈ ImageTags img ∧ prefix ∈ prefixes ∧ HasPrefix tag prefix = true.
Proof.
  intros (prefix & entry & Htop & <-)%elem_of_retainedDigests.
  apply elem_of_take in Htop as (i & Hi%list_elem_of_lookup_2 & _).
  rewrite group_ranked_Permutation in Hi.
  apply elem_of_group in Hi as (img & pushed & tag & Himg & Hp & Htag & Hfirst & ->).
  apply first_match_elem_of in Hfirst as [Hprefix Hpre].
  by exists img, pushed, tag, prefix.
Qed.

Lemma main_go_retains_only_tag_matches_witness :
  ∃ img pushed tag prefix,
    img ∈ [image "A" ["latest"] (Some 1); image "U" [] (Some 2)] ∧
    ImageDigest img = "A" ∧ ImagePushedAt img = Some pushed ∧
    tag ∈ ImageTags img ∧ prefix ∈ ["latest"] ∧ HasPrefix tag prefix = true.
Proof.
  apply (main_go_retains_only_tag_matches (H := GoInsertionSort) ["latest"]).
  apply (bool_decide_unpack _). vm_compute. exact I.
Defined.

(** main.go retains an image, and so never deletes it, when it is in the
    group of some prefix and at most two entries of that group, its own
    counted, are pushed at the same time or later; this holds however
    [sort.Slice] orders equal push times. *)
Theorem main_go_keeps_the_latest_two `{!SliceSorter}
    (prefixes : list string) (images : list ImageDetail) (img : ImageDetail)
    (pushed : Time) (prefix : string) :
  ImagePushedAt img = Some pushed →
  MainGo.entry_of img pushed ∈ MainGo.group prefixes images prefix →
  (length (filter (λ entry, (pushed ≤ MainGo.pushedTime entry)%Z)
             (MainGo.group prefixes images prefix)) ≤ 2)%nat →
  ImageDigest img ∈ MainGo.retainedDigests prefixes images ∧
  ∀ retention dryRun svc repoName now,
    MainGo.process_image (MainGo.retainedDigests prefixes images)
      retention dryRun svc repoName now img
    = [MainGo.LogKeep (ImageDigest img) (ImageTags img)].
Proof.
  intros Hp Hgroup Hfew.
  assert (Hret : ImageDigest img ∈ MainGo.retainedDigests prefixes images).
  { apply elem_of_retainedDigests. exists prefix, (MainGo.entry_of img pushed).
    split; [|done].
    apply (RankFacts.few_later_in_take MainGo.pushedTime keepCount
             (MainGo.group prefixes images prefix));
      [apply group_ranked_Permutation|apply group_ranked_sorted|done|done]. }
  split; [done|]. intros retention dryRun svc repoName now.
  apply (process_image_retained _ _ _ _ _ _ _ pushed); try done.
  apply elem_of_group in Hgroup as (img' & pushed' & tag & _ & _ & Htag & _ & Heq).
  apply (f_equal MainGo.tags) in Heq. simpl in Heq. rewrite Heq.
  intros Hnil. rewrite Hnil in Htag. by apply elem_of_nil in Htag.
Qed.

Lemma main_go_keeps_the_latest_two_witness :
  let images := [image "A" ["dev-1"] (Some 5); image "B" ["dev-2"] (Some 5);
                 image "C" ["dev-3"] (Some 1)] in
  let img := image "B" ["dev-2"] (Some 5) in
  ImageDigest img ∈ MainGo.retainedDigests ["dev"] images ∧
  ∀ retention dryRun svc repoName now,
    MainGo.process_image (MainGo.retainedDigests ["dev"] images)
      retention dryRun svc repoName now img
    = [MainGo.LogKeep (ImageDigest img) (ImageTags img)].
Proof.
  cbv zeta.
  apply (main_go_keeps_the_latest_two (H := GoInsertionSort) ["dev"] _
           (image "B" ["dev-2"] (Some 5)) 5 "dev").
  - reflexivity.
  - vm_compute. apply list_elem_of_further, list_elem_of_here.
  - vm_compute. lia.
Defined.

(** With distinct digests, main.go does not retain a tagged image that, in
    every group it is in, has two or more entries pushed strictly later;
    such an image is deleted as soon as its age exceeds the retention
    period. *)
Theorem main_go_deletes_the_old_and_outranked `{!SliceSorter}
    (prefixes : list string) (retention : Z) (svc : Registry) (repoName : string)
    (now : Time) (images : list ImageDetail) (img : ImageDetail) (pushed : Time) :
  NoDup (ImageDigest <$> images) →
  img ∈ images →
  ImagePushedAt img = Some pushed →
  ImageTags img ≠ [] →
  (∀ prefix,
     MainGo.entry_of img pushed ∈ MainGo.group prefixes images prefix →
     (2 ≤ length (filter (λ entry, (pushed < MainGo.pushedTime entry)%Z)
                    (MainGo.group prefixes images prefix)))%nat) →
  retention < ageDays (Since now pushed) →
  (ImageDigest img ∉ MainGo.retainedDigests prefixes images) ∧
  MainGo.process_image (MainGo.retainedDigests prefixes images)
    retention false svc repoName now img
  = [MainGo.LogOldImage (ImageDigest img) (ageDays (Since now pushed)) (ImageTags img);
     MainGo.BatchDeleteImage repoName (ImageDigest img);
     if svc repoName (ImageDigest img)
     then MainGo.LogDeleted (ImageDigest img)
     else MainGo.LogDeleteError (ImageDigest img)].
Proof.
  intros Hnd Himg Hp Htags Hout Hage.
  assert (Hnot : ImageDigest img ∉ MainGo.retainedDigests prefixes images).
  { intros (prefix & entry & Htop & Hd)%elem_of_retainedDigests.
    assert (Hin : entry ∈ MainGo.group prefixes images prefix).
    { rewrite <- (group_ranked_Permutation (MainGo.group prefixes images prefix)).
      apply elem_of_take in Htop as (i & Hi & _). by eapply list_elem_of_lookup_2. }
    pose proof Hin as Hin'.
    apply elem_of_group in Hin' as (img' & pushed' & tag & Himg' & Hp' & _ & _ & ->).
    simpl in Hd.
    assert (img' = img) as -> by by apply (NoDup_fmap_eq ImageDigest images).
    assert (pushed' = pushed) as -> by congruence.
    specialize (Hout prefix Hin).
    apply (RankFacts.in_take_few_strictly_later MainGo.pushedTime keepCount
             (MainGo.group prefixes images prefix)) in Htop;
      [|apply group_ranked_Permutation|apply group_ranked_sorted].
    unfold keepCount in Htop. simpl in Htop. lia. }
  split; [done|].
  by rewrite (process_image_old _ _ _ _ _ _ _ pushed).
Qed.

Lemma main_go_deletes_the_old_and_outranked_witness :
  let images := [image "A" ["dev-1"] (Some 5); image "B" ["dev-2"] (Some 4);
                 image "C" ["dev-3"] (Some 0)] in
  let img := image "C" ["dev-3"] (Some 0) in
  (ImageDigest img ∉ MainGo.retainedDigests ["dev"] images) ∧
  MainGo.process_image (MainGo.retainedDigests ["dev"] images)
    10 false deletes "repo" (40 * Day) img
  = [MainGo.LogOldImage "C" (ageDays (Since (40 * Day) 0)) ["dev-3"];
     MainGo.BatchDeleteImage "repo" "C"; MainGo.LogDeleted "C"].
Proof.
  cbv zeta.
  apply (main_go_deletes_the_old_and_outranked (H := GoInsertionSort)
           ["dev"] 10 deletes "repo" (40 * Day) _ (image "C" ["dev-3"] (Some 0)) 0).
  - apply (bool_decide_unpack _). vm_compute. exact I.
  - apply list_elem_of_further, list_elem_of_further, list_elem_of_here.
  - reflexivity.
  - simpl. discriminate.
  - intros prefix Hin.
    destruct (decide (prefix = "dev")) as [->|Hne]; [vm_compute; lia|].
    rewrite GroupFacts.group_empty in Hin; [by apply elem_of_nil in Hin|].
    intros tag Hfirst. apply first_match_elem_of in Hfirst as [Hp _].
    apply list_elem_of_singleton in Hp. congruence.
  - vm_compute. reflexivity.
Defined.

(* ===================================================================== *)
(** ** Further properties: whole runs of main.go *)
(* ===================================================================== *)

Module MainGoRun.
Import MainGo.

(** The events that touch the registry: the delete call and the line that
    reports its outcome. *)
Definition registry_event (ev : event) : bool :=
  match ev with
  | BatchDeleteImage _ _ | LogDeleted _ | LogDeleteError _ => true
  | _ => false
  end.

(** The digest a delete call names, and the digest logged as old. *)
Definition called (ev : event) : option string :=
  match ev with BatchDeleteImage _ d => Some d | _ => None end.
Definition logged_old (ev : event) : option string :=
  match ev with LogOldImage d _ _ => Some d | _ => None end.

Lemma process_image_dry retained retention svc svc' repoName now img :
  filter (λ ev, registry_event ev = false)
    (process_image retained retention false svc repoName now img)
  = process_image retained retention true svc' repoName now img ∧
  omap called (process_image retained retention false svc repoName now img)
  = omap logged_old (process_image retained retention true svc' repoName now img) ∧
  omap called (process_image retained retention true svc' repoName now img) = [].
Proof.
  unfold process_image.
  destruct (ImagePushedAt img) as [pushed|]; [|done].
  destruct (ImageTags img) as [|tag tags']; [done|].
  case_decide; [done|].
  destruct (retention <? _); [|done].
  by destruct (svc _ _).
Qed.

Lemma iterations_dry retained retention svc svc' repoName clock tick images :
  filter (λ ev, registry_event ev = false)
    (flat_map snd (iterations retained retention false svc repoName clock tick images))
  = flat_map snd (iterations retained retention true svc' repoName clock tick images) ∧
  omap called
    (flat_map snd (iterations retained retention false svc repoName clock tick images))
  = omap logged_old
      (flat_map snd (iterations retained retention true svc' repoName clock tick images)) ∧
  omap called
    (flat_map snd (iterations retained retention true svc' repoName clock tick images)) = [].
Proof.
  revert tick. induction images as [|img images IH]; intros tick; [done|].
  cbn [iterations]. destruct (ImagePushedAt img) eqn:Hp.
  - cbn [flat_map snd]. rewrite filter_app, !omap_app.
    destruct (IH (S tick)) as (-> & -> & ->).
    destruct (process_image_dry retained retention svc svc' repoName (clock tick) img)
      as (-> & -> & ->).
    done.
  - cbn [flat_map snd]. rewrite !app_nil_l. apply IH.
Qed.

Lemma delete_call_in_turn retained retention dryRun svc repoName clock tick images repo d :
  BatchDeleteImage repo d
    ∈ flat_map snd (iterations retained retention dryRun svc repoName clock tick images) →
  dryRun = false ∧ repo = repoName ∧
  ∃ i img pushed,
    images !! i = Some img ∧ ImageDigest img = d ∧ ImagePushedAt img = Some pushed ∧
    ImageTags img ≠ [] ∧ (d ∉ retained) ∧
    retention < ageDays (Since (clock (tick + readings (take i images))%nat) pushed).
Proof.
  intros Hin.
  apply list_elem_of_In, in_flat_map in Hin as ([img evs] & Hturn & Hev).
  apply list_elem_of_In, turn_reading in Hturn as (i & Himg & ->).
  simpl in Hev.
  apply list_elem_of_In, BatchDeleteImage_in_turn in Hev
    as (-> & -> & -> & pushed & Hp & Htags & Hret & Hage).
  split_and!; try done. by exists i, img, pushed.
Qed.

(** The clock readings taken for the first [j] repositories of the list. *)
Fixpoint readings_before (repos : list (string * option (list ImageDetail))) (j : nat)
    : nat :=
  match j, repos with
  | S j', repo :: repos' =>
      (match repo.2 with Some images => readings images | None => 0 end
       + readings_before repos' j')%nat
  | _, _ => 0%nat
  end.

Lemma iterations_skip_no_push_time retained retention dryRun svc repoName clock tick images :
  flat_map snd (iterations retained retention dryRun svc repoName clock tick
                  (filter (λ img, is_Some (ImagePushedAt img)) images))
  = flat_map snd (iterations retained retention dryRun svc repoName clock tick images).
Proof.
  revert tick. induction images as [|img images IH]; intros tick; [done|].
  rewrite filter_cons. case_decide as Hsome.
  - destruct Hsome as [pushed Hp]. cbn [iterations]. rewrite Hp.
    cbn [flat_map snd]. by rewrite IH.
  - cbn [iterations]. destruct (ImagePushedAt img) as [pushed|] eqn:Hp.
    { destruct Hsome. by eexists. }
    cbn [flat_map snd]. rewrite app_nil_l. apply IH.
Qed.

Lemma foldl_group_image_skip prefixes (m : gmap string (list taggedImage)) images :
  foldl (group_image prefixes) m (filter (λ img, is_Some (ImagePushedAt img)) images)
  = foldl (group_image prefixes) m images.
Proof.
  revert m. induction images as [|img images IH]; intros m; [done|].
  rewrite filter_cons. case_decide as Hsome.
  - cbn [foldl]. apply IH.
  - cbn [foldl]. rewrite IH. f_equal. unfold group_image.
    destruct (ImagePushedAt img) as [pushed|] eqn:Hp; [|done].
    destruct Hsome. by eexists.
Qed.

End MainGoRun.

(** The delete calls of a whole run of main.go: a call is issued only in a
    live run, names the repository the image was listed in, and is for a
    tagged image with a push time that is not among the retained digests of
    that repository and whose age exceeds the retention period at the clock
    reading of its own turn: the reading that follows those taken for the
    earlier repositories and for the earlier images of its repository. *)
Theorem main_go_delete_calls `{!SliceSorter}
    (retention : Z) (prefixList : string) (dryRun : bool) (svc : Registry)
    (clock : MainGo.Clock) (repos : list (string * option (list ImageDetail)))
    (repo d : string) :
  MainGo.BatchDeleteImage repo d
    ∈ MainGo.main retention prefixList dryRun svc clock repos →
  dryRun = false ∧
  ∃ j images i img pushed,
    repos !! j = Some (repo, Some images) ∧ images !! i = Some img ∧
    ImageDigest img = d ∧ ImagePushedAt img = Some pushed ∧ ImageTags img ≠ [] ∧
    (d ∉ MainGo.retainedDigests (Split prefixList comma) images) ∧
    retention
    < ageDays (Since (clock (MainGoRun.readings_before repos j
                             + MainGo.readings (take i images))%nat) pushed).
Proof.
  unfold MainGo.main.
  assert (Hgen : ∀ tick,
    MainGo.BatchDeleteImage repo d
      ∈ MainGo.repositories (Split prefixList comma) retention dryRun svc clock tick repos →
    dryRun = false ∧
    ∃ j images i img pushed,
      repos !! j = Some (repo, Some images) ∧ images !! i = Some img ∧
      ImageDigest img = d ∧ ImagePushedAt img = Some pushed ∧ ImageTags img ≠ [] ∧
      (d ∉ MainGo.retainedDigests (Split prefixList comma) images) ∧
      retention
      < ageDays (Since (clock (tick + MainGoRun.readings_before repos j
                               + MainGo.readings (take i images))%nat) pushed)).
  { induction repos as [|[name described] repos IH]; intros tick;
      cbn [MainGo.repositories].
    { by intros ?%elem_of_nil. }
    assert (Hrest : ∀ tick',
      (tick' = tick + match described with
                      | Some images => MainGo.readings images
                      | None => 0
                      end)%nat →
      MainGo.BatchDeleteImage repo d
        ∈ MainGo.repositories (Split prefixList comma) retention dryRun svc clock tick' repos →
      dryRun = false ∧
      ∃ j images i img pushed,
        ((name, described) :: repos) !! j = Some (repo, Some images) ∧
        images !! i = Some img ∧
        ImageDigest img = d ∧ ImagePushedAt img = Some pushed ∧ ImageTags img ≠ [] ∧
        (d ∉ MainGo.retainedDigests (Split prefixList comma) images) ∧
        retention
        < ageDays (Since (clock (tick
                                 + MainGoRun.readings_before ((name, described) :: repos) j
                                 + MainGo.readings (take i images))%nat) pushed)).
    { intros tick' -> Hin.
      destruct (IH _ Hin) as (-> & j & images & i & img & pushed & Hj & Hrest).
      split; [done|]. exists (S j), images, i, img, pushed. split; [done|].
      cbn [MainGoRun.readings_before snd]. by rewrite !Nat.add_assoc in *. }
    simpl. destruct described as [[|img0 images0]|].
    - apply Hrest. unfold MainGo.readings. by rewrite filter_nil, Nat.add_0_r.
    - intros [Hin|Hin]%elem_of_app; [|by eapply Hrest].
      apply MainGoRun.delete_call_in_turn in Hin
        as (-> & -> & i & img & pushed & Himg & Hd & Hp & Htags & Hret & Hage).
      split; [done|]. exists 0%nat, (img0 :: images0), i, img, pushed.
      cbn [MainGoRun.readings_before]. rewrite Nat.add_0_r. by split_and!.
    - apply Hrest. by rewrite Nat.add_0_r. }
  intros Hin. destruct (Hgen 0%nat Hin) as (-> & j & images & i & img & pushed & H').
  split; [done|]. by exists j, images, i, img, pushed.
Qed.

Lemma main_go_delete_calls_witness :
  let repos := [("empty", Some []); ("first", Some [image "U" [] (Some 0)]);
                ("repo", Some [image "A" ["foo"] (Some 0)])] in
  let clock : MainGo.Clock := λ n, Z.of_nat n * (40 * Day) in
  false = false ∧
  ∃ j images i img pushed,
    repos !! j = Some ("repo", Some images) ∧ images !! i = Some img ∧
    ImageDigest img = "A" ∧ ImagePushedAt img = Some pushed ∧ ImageTags img ≠ [] ∧
    ("A" ∉ MainGo.retainedDigests (Split "latest" comma) images) ∧
    10 < ageDays (Since (clock (MainGoRun.readings_before repos j
                                + MainGo.readings (take i images))%nat) pushed).
Proof.
  cbv zeta.
  apply (main_go_delete_calls (H := GoInsertionSort) 10 "latest" false deletes
           (λ n, Z.of_nat n * (40 * Day)) _ "repo" "A").
  vm_compute. apply list_elem_of_further, list_elem_of_further, list_elem_of_here.
Defined.

(** A dry run of main.go is a faithful preview, the clock readings being
    the same: its trace is the trace of the live run without the delete
    calls and their outcome lines, and the digests it logs as old are the
    digests the live run deletes, in the same order. *)
Theorem main_go_dry_run_is_faithful `{!SliceSorter}
    (retention : Z) (prefixList : string) (svc svc' : Registry)
    (clock : MainGo.Clock) (repos : list (string * option (list ImageDetail))) :
  filter (λ ev, MainGoRun.registry_event ev = false)
    (MainGo.main retention prefixList false svc clock repos)
  = MainGo.main retention prefixList true svc' clock repos ∧
  omap MainGoRun.called (MainGo.main retention prefixList false svc clock repos)
  = omap MainGoRun.logged_old (MainGo.main retention prefixList true svc' clock repos) ∧
  omap MainGoRun.called (MainGo.main retention prefixList true svc' clock repos) = [].
Proof.
  unfold MainGo.main. generalize 0%nat as tick.
  induction repos as [|[name described] repos IH]; intros tick; [done|].
  cbn [MainGo.repositories]. simpl.
  destruct described as [[|img0 images0]|]; try apply IH.
  rewrite filter_app, !omap_app. unfold MainGo.process_repository, MainGo.turns.
  destruct (MainGoRun.iterations_dry
              (MainGo.retainedDigests (Split prefixList comma) (img0 :: images0))
              retention svc svc' name clock tick (img0 :: images0)) as (-> & -> & ->).
  destruct (IH (tick + MainGo.readings (img0 :: images0))%nat) as (-> & -> & ->).
  done.
Qed.

(** Images without a push time are invisible to both programs: leaving
    them out of the list changes neither the trace of test.go nor the
    retained digests and the trace of main.go. *)
Theorem images_without_push_time_are_ignored `{!SliceSorter}
    (prefixes : list string) (retention : Z) (dryRun : bool) (svc : Registry)
    (repoName : string) (clock : MainGo.Clock) (tick : nat) (images : list ImageDetail) :
  let dated := filter (λ img, is_Some (ImagePushedAt img)) images in
  TestGo.process_repository prefixes dryRun svc repoName dated
  = TestGo.process_repository prefixes dryRun svc repoName images ∧
  MainGo.retainedDigests prefixes dated = MainGo.retainedDigests prefixes images ∧
  MainGo.process_repository prefixes retention dryRun svc repoName clock tick dated
  = MainGo.process_repository prefixes retention dryRun svc repoName clock tick images.
Proof.
  intros dated.
  assert (Hscan : TestGo.scan prefixes dated = TestGo.scan prefixes images).
  { unfold TestGo.scan, dated. rewrite !foldl_scan_image. simpl.
    rewrite !list_filter_filter. f_equal; apply list_filter_iff; intros img.
    - unfold is_match. tauto.
    - unfold is_untagged. tauto. }
  assert (Hret : MainGo.retainedDigests prefixes dated
                 = MainGo.retainedDigests prefixes images).
  { unfold MainGo.retainedDigests, MainGo.prefixMatchMap, dated.
    by rewrite MainGoRun.foldl_group_image_skip. }
  split_and!; [|done|].
  - unfold TestGo.process_repository, TestGo.toDelete, TestGo.keepMap,
      TestGo.retainedImages, TestGo.ranked. by rewrite Hscan.
  - unfold MainGo.process_repository, MainGo.turns. rewrite Hret.
    apply MainGoRun.iterations_skip_no_push_time.
Qed.

(* ===================================================================== *)
(** ** Further properties: the age *)
(* ===================================================================== *)

Module AgeSign.
Import F64.

(** A float64 that is zero, not a number, or has the sign bit set. *)
Definition not_positive (x : float64) : Prop :=
  match x with
  | S754_zero _ | S754_nan => True
  | S754_infinity s | S754_finite s _ _ => s = true
  end.

Lemma binary_round_aux_not_positive mx ex lx :
  not_positive (binary_round_aux prec emax true mx ex lx).
Proof.
  unfold binary_round_aux.
  destruct (shr_fexp prec emax mx ex lx) as [mrs' e'].
  destruct (shr_fexp prec emax _ e' loc_Exact) as [mrs'' e''].
  destruct (shr_m mrs''); simpl; [done| |done].
  by destruct (e'' <=? emax - prec).
Qed.

Lemma binary_round_not_positive m e : not_positive (binary_round prec emax true m e).
Proof.
  unfold binary_round. destruct (shl_align _ _ _) as [mz ez].
  apply binary_round_aux_not_positive.
Qed.

Lemma of_int_not_positive n : n ≤ 0 → not_positive (of_int n).
Proof.
  intros Hn. unfold of_int, binary_normalize.
  destruct n as [|m|m]; [done|lia|]. apply binary_round_not_positive.
Qed.

Lemma div_not_positive x my ey :
  not_positive x → not_positive (div x (S754_finite false my ey)).
Proof.
  unfold div, SFdiv. destruct x as [sx|sx| |sx mx ex]; simpl; try done.
  - by intros ->.
  - intros ->. destruct (SFdiv_core_binary _ _ _ _ _ _) as [[mz ez] lz].
    apply binary_round_aux_not_positive.
Qed.

Lemma add_not_positive x y : not_positive x → not_positive y → not_positive (add x y).
Proof.
  unfold add, SFadd.
  destruct x as [sx|sx| |sx mx ex], y as [sy|sy| |sy my ey]; simpl; try done.
  - intros _ _. by destruct sx, sy.
  - intros -> ->. reflexivity.
  - intros -> ->. simpl. apply binary_round_not_positive.
Qed.

Lemma to_int_not_positive x : not_positive x → to_int x ≤ 0.
Proof.
  destruct x as [s|s| |s m e]; simpl; try done.
  intros ->. destruct e as [|p|p].
  - lia.
  - assert (0 ≤ Z.pos m * 2 ^ Z.pos p); [|lia].
    apply Z.mul_nonneg_nonneg; [lia|]. apply Z.pow_nonneg. lia.
  - assert (0 ≤ Z.pos m `div` 2 ^ Z.pos p); [|lia].
    apply Z.div_pos; [lia|]. apply Z.pow_pos_nonneg; lia.
Qed.

Lemma ageDays_not_positive (d : Duration) : d ≤ 0 → ageDays d ≤ 0.
Proof.
  intros Hd. unfold ageDays, Hours.
  apply to_int_not_positive.
  change (of_int 24) with (S754_finite false 6755399441055744 (-48)).
  apply div_not_positive, add_not_positive.
  - apply of_int_not_positive.
    rewrite <- (Z.opp_involutive d), Z.quot_opp_l by (by compute).
    assert (0 ≤ (- d) ÷ Hour); [|lia]. apply Z.quot_pos; [lia|by compute].
  - change (of_int 3600000000000) with (S754_finite false 7372800000000000 (-11)).
    apply div_not_positive, of_int_not_positive.
    rewrite <- (Z.opp_involutive d), Z.rem_opp_l by (by compute).
    assert (0 ≤ Z.rem (- d) Hour); [|lia]. apply Z.rem_nonneg; [by compute|lia].
Qed.

Lemma Since_not_positive (now pushed : Time) : now ≤ pushed → Since now pushed ≤ 0.
Proof.
  intros Hle. unfold Since, Sub.
  destruct (Z.ltb_spec (now - pushed) minDuration); [by compute|].
  destruct (Z.ltb_spec maxDuration (now - pushed)) as [Hgt|_]; [|lia].
  unfold maxDuration in Hgt. lia.
Qed.

(** [check fuel n f]: [f] holds at [n], [n + 1], ..., [n + fuel - 1]. *)
Fixpoint check (fuel : nat) (n : Z) (f : Z → bool) : bool :=
  match fuel with
  | O => true
  | S fuel' => f n && check fuel' (n + 1) f
  end.

Lemma check_spec (fuel : nat) (n : Z) (f : Z → bool) :
  check fuel n f = true → ∀ k, n ≤ k < n + Z.of_nat fuel → f k = true.
Proof.
  revert n. induction fuel as [|fuel IH]; intros n; simpl; [lia|].
  intros [Hn Hrest]%andb_true_iff k Hk.
  destruct (decide (k = n)) as [->|Hne]; [done|].
  apply (IH (n + 1)); [done|lia].
Qed.
End AgeSign.

(** With a retention period that is not negative, main.go never deletes an
    image whose push time is not before the clock reading (a clock that runs
    behind the registry): its age is not positive. *)
Theorem main_go_keeps_images_from_the_future
    (retained : gset string) (retention : Z) (dryRun : bool) (svc : Registry)
    (repoName : string) (now : Time) (img : ImageDetail) (pushed : Time) :
  0 ≤ retention →
  ImagePushedAt img = Some pushed →
  now ≤ pushed →
  ageDays (Since now pushed) ≤ 0 ∧
  ∀ repo d,
    MainGo.BatchDeleteImage repo d
      ∉ MainGo.process_image retained retention dryRun svc repoName now img.
Proof.
  intros Hret Hp Hnow.
  pose proof (AgeSign.ageDays_not_positive _ (AgeSign.Since_not_positive _ _ Hnow)) as Hage.
  split; [done|].
  intros repo d (_ & _ & _ & pushed' & Hp' & _ & _ & Hold)%BatchDeleteImage_in_turn.
  assert (pushed' = pushed) as -> by congruence. lia.
Qed.

Lemma main_go_keeps_images_from_the_future_witness :
  ageDays (Since 0 (3 * Day)) ≤ 0 ∧
  ∀ repo d,
    MainGo.BatchDeleteImage repo d
      ∉ MainGo.process_image ∅ 0 false deletes "repo" 0 (image "A" ["foo"] (Some (3 * Day))).
Proof.
  apply (main_go_keeps_images_from_the_future ∅ 0 false deletes "repo" 0
           (image "A" ["foo"] (Some (3 * Day))) (3 * Day)).
  - lia.
  - reflexivity.
  - vm_compute. discriminate.
Defined.

(** The age is exact on whole days, for every span up to 100 years (36525
    days): an image pushed exactly [n] days before the clock reading has age
    [n].  One nanosecond short of a whole day the age is still the floor up
    to 170 days; at 171 days less one nanosecond it is already 171. *)
Theorem ageDays_on_whole_days (n : Z) :
  (0 ≤ n ≤ 36525 → ageDays (n * Day) = n) ∧
  (0 ≤ n < 170 → ageDays ((n + 1) * Day - 1) = n) ∧
  ageDays (171 * Day - 1) = 171.
Proof.
  split_and!.
  - intros Hn.
    assert (Hall : AgeSign.check (Z.to_nat 36526) 0 (λ k, ageDays (k * Day) =? k) = true)
      by (vm_compute; reflexivity).
    apply Z.eqb_eq, (AgeSign.check_spec _ _ _ Hall). lia.
  - intros Hn.
    assert (Hall : AgeSign.check 170 0 (λ k, ageDays ((k + 1) * Day - 1) =? k) = true)
      by (vm_compute; reflexivity).
    apply Z.eqb_eq, (AgeSign.check_spec _ _ _ Hall). lia.
  - by vm_compute.
Qed.

Lemma ageDays_on_whole_days_witness :
  ageDays (40 * Day) = 40 ∧ ageDays ((40 + 1) * Day - 1) = 40.
Proof.
  split.
  - apply (proj1 (ageDays_on_whole_days 40)). lia.
  - apply (proj1 (proj2 (ageDays_on_whole_days 40))). lia.
Defined.
